(** * clangd-index-parser: a shallow embedding of [riff.py]

    The decoder of clangd's RIFF index container ([ClangIndex] in
    [src/riff.py]) is embedded as pure functions over byte lists.  A
    [BytesIO] object (and the file object opened in binary mode) is a
    buffer with a read position; Python exceptions are the [Raise]
    outcomes of a small state-and-error monad; [while] loops carry fuel,
    and the fuel given by the callers is shown to be enough.

    Python [int]s are [Z]; [bytes] are lists of [Byte.byte]; a Python
    [str] is the list of its code points. *)

From Stdlib Require Import ZArith List Lia Bool Ascii String.
From Stdlib Require Import Strings.Byte.
From stdpp Require Import base option list countable gmap.

Import ListNotations.
Local Open Scope Z_scope.

(** ** Bytes, integers and text *)

Definition byte_val (b : byte) : Z := Z.of_N (Byte.to_N b).

(** [int.from_bytes(bs, byteorder='little')]; the empty sequence gives 0. *)
Fixpoint int_from_bytes (bs : list byte) : Z :=
  match bs with
  | [] => 0
  | b :: bs' => byte_val b + 256 * int_from_bytes bs'
  end.

(** A Python [str]: its code points. *)
Abbreviation str := (list Z).

Definition Str (s : string) : str :=
  map (fun a => Z.of_N (N_of_ascii a)) (list_ascii_of_string s).

Definition hex_digit (n : Z) : Z := if n <? 10 then 48 + n else 87 + n.

(** [bytes.hex()]: two lowercase digits per byte. *)
Fixpoint hex (bs : list byte) : str :=
  match bs with
  | [] => []
  | b :: bs' =>
      hex_digit (Z.shiftr (byte_val b) 4) :: hex_digit (Z.land (byte_val b) 15) :: hex bs'
  end.

Definition is_cont (b : Z) : bool := (128 <=? b) && (b <=? 191).

(** [bytes.decode()]: strict UTF-8.  Shortest forms only, no surrogates,
    nothing above U+10FFFF; [None] stands for [UnicodeDecodeError]. *)
Fixpoint utf8_decode (bs : list Z) : option (list Z) :=
  match bs with
  | [] => Some []
  | b0 :: r0 =>
      if b0 <? 128 then cons b0 <$> utf8_decode r0
      else if b0 <? 194 then None
      else if b0 <? 224 then
        match r0 with
        | b1 :: r1 =>
            if is_cont b1
            then cons ((b0 - 192) * 64 + (b1 - 128)) <$> utf8_decode r1
            else None
        | _ => None
        end
      else if b0 <? 240 then
        match r0 with
        | b1 :: b2 :: r2 =>
            if is_cont b1 && is_cont b2
               && negb ((b0 =? 224) && (b1 <? 160))
               && negb ((b0 =? 237) && (159 <? b1))
            then cons ((b0 - 224) * 4096 + (b1 - 128) * 64 + (b2 - 128))
                   <$> utf8_decode r2
            else None
        | _ => None
        end
      else if b0 <? 245 then
        match r0 with
        | b1 :: b2 :: b3 :: r3 =>
            if is_cont b1 && is_cont b2 && is_cont b3
               && negb ((b0 =? 240) && (b1 <? 144))
               && negb ((b0 =? 244) && (143 <? b1))
            then cons ((b0 - 240) * 262144 + (b1 - 128) * 4096
                       + (b2 - 128) * 64 + (b3 - 128))
                   <$> utf8_decode r3
            else None
        | _ => None
        end
      else None
  end.

Definition decode (bs : list byte) : option str := utf8_decode (map byte_val bs).

(** [s.split(sep)] for a one-character separator: the pieces between the
    separators, the empty piece after a final separator included. *)
Fixpoint split (sep : Z) (s : str) : list str :=
  match s with
  | [] => [[]]
  | c :: s' =>
      if c =? sep then [] :: split sep s'
      else match split sep s' with
           | piece :: pieces => (c :: piece) :: pieces
           | [] => [[c]]
           end
  end.

(** ** Exceptions and the decoding monad *)

Inductive exn : Type :=
| ValueError_invalid_enum (v : Z)      (* SymbolKind(v), SymbolLanguage(v) *)
| ValueError_unknown_chunk (id : str)  (* raise ValueError("Unknown chunk ID") *)
| IndexError                           (* list index out of range *)
| AttributeError                       (* self.string_table not assigned yet *)
| UnicodeDecodeError
| zlib_error.

Inductive outcome (A : Type) : Type :=
| Ok (a : A)
| Raise (e : exn)
| OutOfFuel.
Arguments Ok {A} a.
Arguments Raise {A} e.
Arguments OutOfFuel {A}.

(** [BytesIO(data)], or a file opened with ['rb']. *)
Record stream : Type := Stream { buf : list byte; pos : nat }.

Definition BytesIO (data : list byte) : stream := Stream data 0.

Definition M (A : Type) : Type := stream -> outcome (A * stream).

Definition ret {A} (a : A) : M A := fun s => Ok (a, s).

Definition bind {A B} (m : M A) (f : A -> M B) : M B :=
  fun s => match m s with
           | Ok (a, s') => f a s'
           | Raise e => Raise e
           | OutOfFuel => OutOfFuel
           end.

Definition raise {A} (e : exn) : M A := fun _ => Raise e.

Notation "x <- m ;; k" := (bind m (fun x => k))
  (at level 100, m at next level, right associativity).

(** [stream.read(n)]: at most [n] bytes, fewer at the end of the buffer;
    never an exception. *)
Definition read (n : nat) : M (list byte) :=
  fun s =>
    let got := firstn n (skipn (pos s) (buf s)) in
    Ok (got, Stream (buf s) (pos s + length got)).

(** [for _ in range(n): ...], collecting what each round appends. *)
Fixpoint for_range {A} (n : nat) (body : M A) : M (list A) :=
  match n with
  | O => ret []
  | S n' => x <- body ;; xs <- for_range n' body ;; ret (x :: xs)
  end.

(** [while stream.tell() < len(data): acc.append(body)] *)
Fixpoint while_records {A} (fuel : nat) (data : list byte) (body : M A)
    (acc : list A) : M (list A) :=
  fun s =>
    if (pos s <? length data)%nat then
      match fuel with
      | O => OutOfFuel
      | S fuel' =>
          match body s with
          | Ok (r, s') => while_records fuel' data body (acc ++ [r]) s'
          | Raise e => Raise e
          | OutOfFuel => OutOfFuel
          end
      end
    else Ok (acc, s).

(** ** Primitive reads ([consume_id], [consume8], [consume_var]) *)

Definition consume_id : M str :=
  bs <- read 8 ;; ret (hex bs).

Definition consume8 : M Z :=
  bs <- read 1 ;; ret (int_from_bytes bs).

Definition more : Z := Z.shiftl 1 7.

(** The [while (b & more) and shift < 32] loop of [consume_var]. *)
Fixpoint consume_var_loop (fuel : nat) (b val shift : Z) : M Z :=
  if negb (Z.land b more =? 0) && (shift <? 32) then
    match fuel with
    | O => fun _ => OutOfFuel
    | S fuel' =>
        b' <- consume8 ;;
        consume_var_loop fuel' b'
          (Z.lor val (Z.shiftl (Z.land b' (Z.lnot more)) shift)) (shift + 7)
    end
  else ret val.

Definition consume_var : M Z :=
  b <- consume8 ;;
  if Z.land b more =? 0 then ret b
  else consume_var_loop 4 b (Z.land b (Z.lnot more)) 7.


(** ** Enumerations *)

Inductive SymbolKind : Type :=
| File | Module_ | Namespace | Package | Class_ | Method | Property | Field
| Constructor | Enum | Interface | Function_ | Variable_ | Constant | String_
| Number | Boolean | Array | Object | Key | Null | EnumMember | Struct | Event
| Operator | TypeParameter.

(** [SymbolKind(v)]: the member whose value is [v]. *)
Definition SymbolKind_of_int (v : Z) : option SymbolKind :=
  match v with
  | 1 => Some File | 2 => Some Module_ | 3 => Some Namespace | 4 => Some Package
  | 5 => Some Class_ | 6 => Some Method | 7 => Some Property | 8 => Some Field
  | 9 => Some Constructor | 10 => Some Enum | 11 => Some Interface
  | 12 => Some Function_ | 13 => Some Variable_ | 14 => Some Constant
  | 15 => Some String_ | 16 => Some Number | 17 => Some Boolean | 18 => Some Array
  | 19 => Some Object | 20 => Some Key | 21 => Some Null | 22 => Some EnumMember
  | 23 => Some Struct | 24 => Some Event | 25 => Some Operator
  | 26 => Some TypeParameter
  | _ => None
  end.

Inductive SymbolLanguage : Type := C | Cpp | ObjC | Swift.

Definition SymbolLanguage_of_int (v : Z) : option SymbolLanguage :=
  match v with
  | 0 => Some C | 1 => Some Cpp | 2 => Some ObjC | 3 => Some Swift
  | _ => None
  end.

(** Calling an [IntEnum] class on a value that no member has raises
    [ValueError]. *)
Definition enum_call {E} (of_int : Z -> option E) (v : Z) : M E :=
  match of_int v with
  | Some e => ret e
  | None => raise (ValueError_invalid_enum v)
  end.

(** ** Decoded records (the dictionaries the decoders build) *)

Record Position : Type := { line : Z; column : Z }.

Record Location : Type :=
  { file_uri : str; start : Position; end_ : Position }.

Record IncludeHeader : Type :=
  { header : str; header_references : Z; supported_directives : Z }.

Record Symbol : Type :=
  { id : str; kind : SymbolKind; lang : SymbolLanguage; name : str; scope : str;
    template_specialization_args : str;
    definition : Location; canonical_declaration : Location;
    references : Z; flags : Z;
    signature : str; completion_snippet_suffix : str; documentation : str;
    return_type : str; type : str;
    include_headers : list IncludeHeader }.

Record Reference : Type :=
  { ref_kind : Z; ref_location : Location; container : str }.

Record Ref : Type := { symbol_id : str; ref_references : list Reference }.

Record Relation : Type := { subject : Z; predicate : Z; object : Z }.

Record Source : Type :=
  { src_flags : Z; uri : str; digest : list byte; direct_includes : list str }.

Record Command : Type := { directory : str; cmd_commands : list str }.

(** What [parse_data] returns, by chunk. *)
Inductive chunk_value : Type :=
| VVersion (v : Z)
| VStrings (l : list str)
| VSymbols (l : list Symbol)
| VRefs (l : list Ref)
| VRelations (l : list Relation)
| VSources (l : list Source)
| VCommands (l : list Command).

(** The attributes of a [ClangIndex] object that the parsers assign;
    [None] is an attribute not assigned yet. *)
Record ClangIndex : Type :=
  { version : option Z;
    string_table : option (list str);
    symbols : option (list Symbol);
    refs : option (list Ref);
    relations : option (list Relation);
    sources : option (list Source);
    commands : option (list Command) }.

Definition new_ClangIndex : ClangIndex :=
  Build_ClangIndex None None None None None None None.

Definition set_version (v : Z) (self : ClangIndex) : ClangIndex :=
  Build_ClangIndex (Some v) (string_table self) (symbols self) (refs self)
    (relations self) (sources self) (commands self).
Definition set_string_table (t : list str) (self : ClangIndex) : ClangIndex :=
  Build_ClangIndex (version self) (Some t) (symbols self) (refs self)
    (relations self) (sources self) (commands self).
Definition set_symbols (l : list Symbol) (self : ClangIndex) : ClangIndex :=
  Build_ClangIndex (version self) (string_table self) (Some l) (refs self)
    (relations self) (sources self) (commands self).
Definition set_refs (l : list Ref) (self : ClangIndex) : ClangIndex :=
  Build_ClangIndex (version self) (string_table self) (symbols self) (Some l)
    (relations self) (sources self) (commands self).
Definition set_relations (l : list Relation) (self : ClangIndex) : ClangIndex :=
  Build_ClangIndex (version self) (string_table self) (symbols self) (refs self)
    (Some l) (sources self) (commands self).
Definition set_sources (l : list Source) (self : ClangIndex) : ClangIndex :=
  Build_ClangIndex (version self) (string_table self) (symbols self) (refs self)
    (relations self) (Some l) (commands self).
Definition set_commands (l : list Command) (self : ClangIndex) : ClangIndex :=
  Build_ClangIndex (version self) (string_table self) (symbols self) (refs self)
    (relations self) (sources self) (Some l).

(** ** Strings and locations *)

(** [l[i]] on a Python list: negative indices count from the end. *)
Definition getitem {A} (l : list A) (i : Z) : option A :=
  let n := Z.of_nat (length l) in
  if (0 <=? i) && (i <? n) then l !! Z.to_nat i
  else if (- n <=? i) && (i <? 0) then l !! Z.to_nat (n + i)
  else None.

Definition consume_string (self : ClangIndex) : M str :=
  idx <- consume_var ;;
  match string_table self with
  | None => raise AttributeError
  | Some table =>
      match getitem table idx with
      | Some s => ret s
      | None => raise IndexError
      end
  end.

Definition read_location (self : ClangIndex) : M Location :=
  file_uri <- consume_string self ;;
  start_line <- consume_var ;;
  start_column <- consume_var ;;
  end_line <- consume_var ;;
  end_column <- consume_var ;;
  ret {| file_uri := file_uri;
         start := {| line := start_line; column := start_column |};
         end_ := {| line := end_line; column := end_column |} |}.

(** ** Record decoders *)

Definition read_include_header (self : ClangIndex) : M IncludeHeader :=
  include_header <- consume_string self ;;
  refs_with_directives <- consume_var ;;
  ret {| header := include_header;
         header_references := Z.shiftr refs_with_directives 2;
         supported_directives := Z.land refs_with_directives 3 |}.

Definition read_symbol (self : ClangIndex) : M Symbol :=
  id <- consume_id ;;
  kind_byte <- consume8 ;;
  kind <- enum_call SymbolKind_of_int kind_byte ;;
  lang_byte <- consume8 ;;
  lang <- enum_call SymbolLanguage_of_int lang_byte ;;
  name <- consume_string self ;;
  scope <- consume_string self ;;
  template_specialization_args <- consume_string self ;;
  definition <- read_location self ;;
  canonical_declaration <- read_location self ;;
  references <- consume_var ;;
  flags <- consume8 ;;
  signature <- consume_string self ;;
  completion_snippet_suffix <- consume_string self ;;
  documentation <- consume_string self ;;
  return_type <- consume_string self ;;
  sym_type <- consume_string self ;;
  include_headers_size <- consume_var ;;
  include_headers <-
    for_range (Z.to_nat include_headers_size) (read_include_header self) ;;
  ret {| id := id; kind := kind; lang := lang; name := name; scope := scope;
         template_specialization_args := template_specialization_args;
         definition := definition;
         canonical_declaration := canonical_declaration;
         references := references; flags := flags; signature := signature;
         completion_snippet_suffix := completion_snippet_suffix;
         documentation := documentation; return_type := return_type;
         type := sym_type; include_headers := include_headers |}.

Definition read_reference (self : ClangIndex) : M Reference :=
  kind <- consume8 ;;
  location <- read_location self ;;
  container <- consume_id ;;
  ret {| ref_kind := kind; ref_location := location; container := container |}.

Definition read_ref (self : ClangIndex) : M Ref :=
  symbol_id <- consume_id ;;
  num_refs <- consume_var ;;
  references <- for_range (Z.to_nat num_refs) (read_reference self) ;;
  ret {| symbol_id := symbol_id; ref_references := references |}.

Definition read_relation : M Relation :=
  subject <- consume8 ;;
  predicate <- consume8 ;;
  object <- consume8 ;;
  ret {| subject := subject; predicate := predicate; object := object |}.

Definition read_source (self : ClangIndex) : M Source :=
  flags_bytes <- read 1 ;;
  uri <- consume_string self ;;
  digest <- read 8 ;;
  direct_include_size <- consume_var ;;
  direct_includes <-
    for_range (Z.to_nat direct_include_size) (consume_string self) ;;
  ret {| src_flags := int_from_bytes flags_bytes; uri := uri; digest := digest;
         direct_includes := direct_includes |}.

Definition read_command (self : ClangIndex) : M Command :=
  directory <- consume_string self ;;
  num_commands <- consume_var ;;
  cmds <- for_range (Z.to_nat num_commands) (consume_string self) ;;
  ret {| directory := directory; cmd_commands := cmds |}.

(** The loop of a [parse_*] method, from a fresh [BytesIO(data)] to the
    records and the stream as the loop leaves it. *)
Definition decode_records {A} (body : M A) (data : list byte)
  : outcome (list A * stream) :=
  while_records (S (length data)) data body [] (BytesIO data).

(** A [parse_*] method: the records, and [self] with the attribute set. *)
Definition parse_records {A} (body : M A) (set : list A -> ClangIndex -> ClangIndex)
    (self : ClangIndex) (data : list byte) : outcome (list A * ClangIndex) :=
  match decode_records body data with
  | Ok (records, _) => Ok (records, set records self)
  | Raise e => Raise e
  | OutOfFuel => OutOfFuel
  end.

Definition parse_symb (self : ClangIndex) (data : list byte) :=
  parse_records (read_symbol self) set_symbols self data.
Definition parse_refs (self : ClangIndex) (data : list byte) :=
  parse_records (read_ref self) set_refs self data.
Definition parse_rela (self : ClangIndex) (data : list byte) :=
  parse_records read_relation set_relations self data.
Definition parse_srcs (self : ClangIndex) (data : list byte) :=
  parse_records (read_source self) set_sources self data.
Definition parse_cmdl (self : ClangIndex) (data : list byte) :=
  parse_records (read_command self) set_commands self data.

Definition parse_meta (self : ClangIndex) (data : list byte)
  : outcome (Z * ClangIndex) :=
  let version := int_from_bytes data in
  Ok (version, set_version version self).

(** ** The string table and the chunk dispatcher

    [zlib.decompress] belongs to Python's standard library, not to this
    repository: the decoder is parameterised by it.  It is given the
    compressed block and the [bufsize] argument, and answers [None] where
    zlib raises [zlib.error]. *)

Definition lift {A} (o : outcome A) : M A :=
  fun s => match o with
           | Ok a => Ok (a, s)
           | Raise e => Raise e
           | OutOfFuel => OutOfFuel
           end.

Section Dispatcher.

Variable zlib_decompress : list byte -> Z -> option (list byte).

Definition parse_stri (self : ClangIndex) (data : list byte)
  : outcome (list str * ClangIndex) :=
  let uncompressed_size := int_from_bytes (firstn 4 data) in
  let compressed_data := skipn 4 data in
  match zlib_decompress compressed_data uncompressed_size with
  | None => Raise zlib_error
  | Some uncompressed_data =>
      match decode uncompressed_data with
      | None => Raise UnicodeDecodeError
      | Some text =>
          let string_table := split 0 text in
          Ok (string_table, set_string_table string_table self)
      end
  end.

Definition tagged {A} (tag : A -> chunk_value) (o : outcome (A * ClangIndex))
  : outcome (chunk_value * ClangIndex) :=
  match o with
  | Ok (a, self) => Ok (tag a, self)
  | Raise e => Raise e
  | OutOfFuel => OutOfFuel
  end.

Definition parse_data (self : ClangIndex) (id : str) (data : list byte)
  : outcome (chunk_value * ClangIndex) :=
  if bool_decide (id = Str "meta") then tagged VVersion (parse_meta self data)
  else if bool_decide (id = Str "stri") then tagged VStrings (parse_stri self data)
  else if bool_decide (id = Str "symb") then tagged VSymbols (parse_symb self data)
  else if bool_decide (id = Str "refs") then tagged VRefs (parse_refs self data)
  else if bool_decide (id = Str "rela") then tagged VRelations (parse_rela self data)
  else if bool_decide (id = Str "srcs") then tagged VSources (parse_srcs self data)
  else if bool_decide (id = Str "cmdl") then tagged VCommands (parse_cmdl self data)
  else Raise (ValueError_unknown_chunk id).

Definition parse_chunk : M (list byte * Z) :=
  chunk_id <- read 4 ;;
  size_bytes <- read 4 ;;
  ret (chunk_id, int_from_bytes size_bytes).

(** The decoding session: the object's attributes and the result
    dictionary [cindex]. *)
Definition session : Type := ClangIndex * gmap str chunk_value.

(** One round of the [while] loop of [parse_riff_file]: the chunk is read
    and its tag decoded to text, ... *)
Definition next_chunk : M (str * list byte) :=
  ch <- parse_chunk ;;
  chunk_data <- read (Z.to_nat (snd ch)) ;;
  match decode (fst ch) with
  | None => raise UnicodeDecodeError
  | Some id => ret (id, chunk_data)
  end.

(** ... and what [parse_data] returns is stored under the tag. *)
Definition parse_one_chunk (st : session) : M session :=
  ch <- next_chunk ;;
  r <- lift (parse_data (fst st) (fst ch) (snd ch)) ;;
  ret (snd r, <[fst ch := fst r]> (snd st)).

(** [while file.tell() < riff_size: ...] *)
Fixpoint parse_chunks (fuel : nat) (riff_size : Z) (st : session) : M session :=
  fun file =>
    if Z.of_nat (pos file) <? riff_size then
      match fuel with
      | O => OutOfFuel
      | S fuel' =>
          match parse_one_chunk st file with
          | Ok (st', file') => parse_chunks fuel' riff_size st' file'
          | Raise e => Raise e
          | OutOfFuel => OutOfFuel
          end
      end
    else Ok (st, file).

Definition read_header : M Z :=
  riff_id <- read 4 ;;
  size_bytes <- read 4 ;;
  format_id <- read 4 ;;
  ret (int_from_bytes size_bytes).

(** [parse_riff_file] on a file with the given contents, as run by
    [__init__] on a new object: the dictionary [cindex]. *)
Definition parse_riff_file (contents : list byte)
  : outcome (gmap str chunk_value) :=
  match (riff_size <- read_header ;;
         parse_chunks (S (length contents)) riff_size (new_ClangIndex, ∅))
          (BytesIO contents) with
  | Ok ((_, cindex), _) => Ok cindex
  | Raise e => Raise e
  | OutOfFuel => OutOfFuel
  end.

End Dispatcher.

(** ** A decompressor for stored blocks

    zlib streams (RFC 1950) whose deflate blocks are all stored blocks
    (RFC 1951, block type 00) can be inflated without any Huffman decoding.
    [inflate_stored] does that, checksum included, and rejects every other
    stream; like zlib it does not let [bufsize] change the result.  It
    instantiates the decompressor where the dispatcher is run on concrete
    files. *)

Definition adler32 (bs : list byte) : Z :=
  let '(a, b) :=
    fold_left (fun ab x => let a' := (fst ab + byte_val x) mod 65521 in
                           (a', (snd ab + a') mod 65521)) bs (1, 0) in
  b * 65536 + a.

Fixpoint stored_blocks (fuel : nat) (bs : list byte)
  : option (list byte * list byte) :=
  match fuel, bs with
  | S fuel', hd :: l0 :: l1 :: n0 :: n1 :: rest =>
      let len := int_from_bytes [l0; l1] in
      if (Z.land (byte_val hd) 6 =? 0)
         && (len + int_from_bytes [n0; n1] =? 65535)
         && (len <=? Z.of_nat (length rest))
      then
        let block := firstn (Z.to_nat len) rest in
        let rest' := skipn (Z.to_nat len) rest in
        if Z.testbit (byte_val hd) 0 then Some (block, rest')
        else match stored_blocks fuel' rest' with
             | Some (blocks, rest'') => Some (block ++ blocks, rest'')
             | None => None
             end
      else None
  | _, _ => None
  end.

Definition inflate_stored (data : list byte) (bufsize : Z) : option (list byte) :=
  match data with
  | cmf :: flg :: body =>
      if (Z.land (byte_val cmf) 15 =? 8) && (Z.shiftr (byte_val cmf) 4 <=? 7)
         && ((byte_val cmf * 256 + byte_val flg) mod 31 =? 0)
         && (Z.land (byte_val flg) 32 =? 0)
      then
        match stored_blocks (length body) body with
        | Some (out, a3 :: a2 :: a1 :: a0 :: _) =>
            if adler32 out =? int_from_bytes [a0; a1; a2; a3] then Some out
            else None
        | _ => None
        end
      else None
  | _ => None
  end.

(** ** What the format description says about varints

    These definitions follow the description of the encoding, not the
    code; the theorems below compare [consume_var] with them. *)

(** The bytes of one value: up to [n] bytes, ending with the first one whose
    continuation bit (0x80) is clear. *)
Fixpoint var_bytes (n : nat) (bs : list Z) : list Z :=
  match n, bs with
  | S n', b :: bs' => b :: (if Z.testbit b 7 then var_bytes n' bs' else [])
  | _, _ => []
  end.

(** The value of a group of bytes: the low 7 bits of each, the first at
    [shift], the next 7 bits higher, and so on. *)
Fixpoint var_value (shift : Z) (bs : list Z) : Z :=
  match bs with
  | [] => 0
  | b :: bs' => Z.lor (Z.shiftl (Z.land b 127) shift) (var_value (shift + 7) bs')
  end.

Definition byte_of_int (v : Z) : byte :=
  match Byte.of_N (Z.to_N v) with
  | Some b => b
  | None => x00
  end.

(** The standard continuation-bit base-128 encoding: 7 bits per byte, low
    groups first, 0x80 set on every byte but the last. *)
Fixpoint encode_var_fuel (fuel : nat) (v : Z) : list byte :=
  match fuel with
  | O => []
  | S fuel' =>
      if v <? 128 then [byte_of_int v]
      else byte_of_int (Z.lor (Z.land v 127) 128)
             :: encode_var_fuel fuel' (Z.shiftr v 7)
  end.

Definition encode_var (v : Z) : list byte :=
  encode_var_fuel (S (Z.to_nat (Z.log2 v))) v.

(** ** Vocabulary of the statements *)

(** The bytes not read yet. *)
Definition rest (s : stream) : list byte := skipn (pos s) (buf s).

(** The stream [n] bytes further, or at the end of its buffer. *)
Definition advance (n : nat) (s : stream) : stream :=
  Stream (buf s) (pos s + Nat.min n (length (rest s))).

(** The values that successive [consume8] calls deliver: the remaining
    bytes, then 0 (the integer value of the empty read at the end). *)
Definition seen (s : stream) : list Z := map byte_val (rest s) ++ [0].

(** The byte [i] places ahead, 0 past the end. *)
Definition peek (i : nat) (s : stream) : Z := nth i (map byte_val (rest s)) 0.

(** The exceptions that a record decoder can raise: a string index out of
    the table, no table yet, a byte that is no member of an enumeration. *)
Definition record_error (e : exn) : Prop :=
  e = IndexError \/ e = AttributeError \/ exists v, e = ValueError_invalid_enum v.

(** [reads k m]: [m] never runs out of fuel, raises record errors only, and
    when it returns it has moved the cursor [k] bytes or more ahead (or to
    the end of the buffer). *)
Definition reads {A} (k : nat) (m : M A) : Prop :=
  forall s, match m s with
            | Ok (_, s') => exists n, (k <= n)%nat /\ s' = advance n s
            | Raise e => record_error e
            | OutOfFuel => False
            end.

(** How the loop of a record decoder may end on a payload [data]. *)
Definition ends_at_chunk_end {A} (data : list byte)
    (r : outcome (list A * stream)) : Prop :=
  match r with
  | Ok (_, s') => pos s' = length data
  | Raise e => record_error e
  | OutOfFuel => False
  end.

(** The states in which the loop of a record decoder tests its condition:
    [acc] are the records decoded so far and [s] is the stream. *)
Inductive records_reach {A} (body : M A) (data : list byte)
  : list A -> stream -> Prop :=
| reach_start : records_reach body data [] (BytesIO data)
| reach_next acc s r s' :
    records_reach body data acc s ->
    (pos s < length data)%nat ->
    body s = Ok (r, s') ->
    records_reach body data (acc ++ [r]) s'.

(** The total-size field of the container header. *)
Definition riff_size (contents : list byte) : Z :=
  int_from_bytes (firstn 4 (skipn 4 contents)).

Definition chunk_tags : list str :=
  [Str "meta"; Str "stri"; Str "symb"; Str "refs"; Str "rela"; Str "srcs";
   Str "cmdl"].

(** The value that a log of [(tag, value)] pairs holds last under [id]. *)
Definition last_under (id : str) (log : list (str * chunk_value))
  : option chunk_value :=
  snd <$> last (filter (fun p => fst p = id) log).

Section Runs.

Variable zlib_decompress : list byte -> Z -> option (list byte).

(** The states in which the loop of [parse_riff_file] tests its condition
    on a file [contents]: [log] lists, in file order, the chunks decoded so
    far with what [parse_data] returned for each. *)
Inductive rounds (contents : list byte)
  : list (str * chunk_value) -> session -> stream -> Prop :=
| rounds_start :
    rounds contents [] (new_ClangIndex, ∅) (advance 12 (BytesIO contents))
| rounds_next log st file id data file' v self' :
    rounds contents log st file ->
    Z.of_nat (pos file) < riff_size contents ->
    next_chunk file = Ok ((id, data), file') ->
    parse_data zlib_decompress (fst st) id data = Ok (v, self') ->
    rounds contents (log ++ [(id, v)]) (self', <[id := v]> (snd st)) file'.

End Runs.

(** ** Concrete inputs *)

(** The zlib stream of the 8 bytes [foo\0bar\0], as one stored block. *)
Definition foo_bar_stream : list byte :=
  [x78; x01; x01; x08; x00; xf7; xff;
   x66; x6f; x6f; x00; x62; x61; x72; x00;
   x0c; x6a; x02; x7a].

(** [RIFF], size 16, [CdIx]; then a chunk [xxxx] with 4 payload bytes. *)
Definition unknown_tag_file : list byte :=
  [x52; x49; x46; x46; x10; x00; x00; x00; x43; x64; x49; x78;
   x78; x78; x78; x78; x04; x00; x00; x00; x00; x00; x00; x00].

(** A [symb] chunk of 10 bytes: 8 id bytes, kind byte 99, language byte 0. *)
Definition bad_kind_file : list byte :=
  [x52; x49; x46; x46; x16; x00; x00; x00; x43; x64; x49; x78;
   x73; x79; x6d; x62; x0a; x00; x00; x00;
   x01; x02; x03; x04; x05; x06; x07; x08; x63; x00].

(** Two [meta] chunks, with versions 1 and 2. *)
Definition two_meta_file : list byte :=
  [x52; x49; x46; x46; x1c; x00; x00; x00; x43; x64; x49; x78;
   x6d; x65; x74; x61; x04; x00; x00; x00; x01; x00; x00; x00;
   x6d; x65; x74; x61; x04; x00; x00; x00; x02; x00; x00; x00].

(** ** The remaining code of [riff.py] *)

(** The members' values of the two enumerations. *)
Definition SymbolKind_value (k : SymbolKind) : Z :=
  match k with
  | File => 1 | Module_ => 2 | Namespace => 3 | Package => 4 | Class_ => 5
  | Method => 6 | Property => 7 | Field => 8 | Constructor => 9 | Enum => 10
  | Interface => 11 | Function_ => 12 | Variable_ => 13 | Constant => 14
  | String_ => 15 | Number => 16 | Boolean => 17 | Array => 18 | Object => 19
  | Key => 20 | Null => 21 | EnumMember => 22 | Struct => 23 | Event => 24
  | Operator => 25 | TypeParameter => 26
  end.

Definition SymbolLanguage_value (l : SymbolLanguage) : Z :=
  match l with C => 0 | Cpp => 1 | ObjC => 2 | Swift => 3 end.

(** [parse_varint(data)]: the [for] loop over the bytes with its [break],
    as a function of the running [result] and [shift] ... *)
Fixpoint parse_varint_loop (data : list byte) (result shift : Z) : Z * Z :=
  match data with
  | [] => (result, shift)
  | b :: data' =>
      let result' := Z.lor result (Z.shiftl (Z.land (byte_val b) 127) shift) in
      if Z.land (byte_val b) 128 =? 0 then (result', shift)
      else parse_varint_loop data' result' (shift + 7)
  end.

(** ... and the pair [result, shift // 7 + 1] it returns. *)
Definition parse_varint (data : list byte) : Z * Z :=
  let rs := parse_varint_loop data 0 0 in
  (fst rs, snd rs / 7 + 1).

(** ** Encoders, for the round trips

    [riff.py] only reads.  The functions below write the layouts it reads:
    little-endian integers, null-joined text, and the records of the five
    record chunks with their strings as indices into the string table. *)

(** [v.to_bytes(n, 'little')] *)
Fixpoint int_to_bytes (n : nat) (v : Z) : list byte :=
  match n with
  | O => []
  | S n' => byte_of_int (v mod 256) :: int_to_bytes n' (v / 256)
  end.

(** [sep.join(pieces)] *)
Fixpoint join (sep : Z) (pieces : list str) : str :=
  match pieces with
  | [] => []
  | [piece] => piece
  | piece :: pieces' => piece ++ sep :: join sep pieces'
  end.

(** [m] reads exactly the bytes [bs] and returns [a], whatever follows
    them. *)
Definition emits {A} (m : M A) (bs : list byte) (a : A) : Prop :=
  forall s tl, rest s = bs ++ tl -> m s = Ok (a, advance (length bs) s).

(** Entry [i] of a string table ([] where there is none). *)
Definition entry (table : list str) (i : Z) : str :=
  default [] (table !! Z.to_nat i).

(** An index that a varint can carry and the table has. *)
Definition index_ok (table : list str) (i : Z) : Prop :=
  0 <= i < 2 ^ 35 /\ i < Z.of_nat (length table).

(** A value that a varint can carry. *)
Definition var_ok (v : Z) : Prop := 0 <= v < 2 ^ 35.

Module Wire.

Record location : Type :=
  { file : Z; start_line : Z; start_column : Z; end_line : Z; end_column : Z }.

Record include_header : Type := { header : Z; refs_with_directives : Z }.

Record symbol : Type :=
  { sym_id : list byte; sym_kind : SymbolKind; sym_lang : SymbolLanguage;
    sym_name : Z; sym_scope : Z; sym_template_args : Z;
    sym_definition : location; sym_declaration : location;
    sym_references : Z; sym_flags : byte;
    sym_signature : Z; sym_snippet : Z; sym_documentation : Z;
    sym_return_type : Z; sym_type : Z;
    sym_includes : list include_header }.

Record reference : Type :=
  { r_kind : byte; r_location : location; r_container : list byte }.

Record ref : Type := { ref_id : list byte; ref_list : list reference }.

Record relation : Type := { rel_subject : byte; rel_predicate : byte; rel_object : byte }.

Record source : Type :=
  { s_flags : byte; s_uri : Z; s_digest : list byte; s_includes : list Z }.

Record command : Type := { c_directory : Z; c_args : list Z }.

Definition counted {A} (enc : A -> list byte) (l : list A) : list byte :=
  encode_var (Z.of_nat (length l)) ++ concat (map enc l).

Definition location_bytes (l : location) : list byte :=
  encode_var (file l) ++ encode_var (start_line l) ++ encode_var (start_column l)
  ++ encode_var (end_line l) ++ encode_var (end_column l).

Definition include_bytes (h : include_header) : list byte :=
  encode_var (header h) ++ encode_var (refs_with_directives h).

Definition symbol_bytes (y : symbol) : list byte :=
  sym_id y ++ [byte_of_int (SymbolKind_value (sym_kind y))]
  ++ [byte_of_int (SymbolLanguage_value (sym_lang y))]
  ++ encode_var (sym_name y) ++ encode_var (sym_scope y)
  ++ encode_var (sym_template_args y)
  ++ location_bytes (sym_definition y) ++ location_bytes (sym_declaration y)
  ++ encode_var (sym_references y) ++ [sym_flags y]
  ++ encode_var (sym_signature y) ++ encode_var (sym_snippet y)
  ++ encode_var (sym_documentation y) ++ encode_var (sym_return_type y)
  ++ encode_var (sym_type y)
  ++ counted include_bytes (sym_includes y).

Definition reference_bytes (r : reference) : list byte :=
  [r_kind r] ++ location_bytes (r_location r) ++ r_container r.

Definition ref_bytes (r : ref) : list byte :=
  ref_id r ++ counted reference_bytes (ref_list r).

Definition relation_bytes (r : relation) : list byte :=
  [rel_subject r; rel_predicate r; rel_object r].

Definition source_bytes (x : source) : list byte :=
  [s_flags x] ++ encode_var (s_uri x) ++ s_digest x
  ++ counted encode_var (s_includes x).

Definition command_bytes (c : command) : list byte :=
  encode_var (c_directory c) ++ counted encode_var (c_args c).

(** What the decoders make of a record, given the string table. *)

Definition to_Location (table : list str) (l : location) : Location :=
  {| file_uri := entry table (file l);
     start := {| line := start_line l; column := start_column l |};
     end_ := {| line := end_line l; column := end_column l |} |}.

Definition to_IncludeHeader (table : list str) (h : include_header)
  : IncludeHeader :=
  Build_IncludeHeader (entry table (header h))
    (Z.shiftr (refs_with_directives h) 2) (Z.land (refs_with_directives h) 3).

Definition to_Symbol (table : list str) (y : symbol) : Symbol :=
  {| id := hex (sym_id y); kind := sym_kind y; lang := sym_lang y;
     name := entry table (sym_name y); scope := entry table (sym_scope y);
     template_specialization_args := entry table (sym_template_args y);
     definition := to_Location table (sym_definition y);
     canonical_declaration := to_Location table (sym_declaration y);
     references := sym_references y; flags := byte_val (sym_flags y);
     signature := entry table (sym_signature y);
     completion_snippet_suffix := entry table (sym_snippet y);
     documentation := entry table (sym_documentation y);
     return_type := entry table (sym_return_type y);
     type := entry table (sym_type y);
     include_headers := map (to_IncludeHeader table) (sym_includes y) |}.

Definition to_Reference (table : list str) (r : reference) : Reference :=
  {| ref_kind := byte_val (r_kind r);
     ref_location := to_Location table (r_location r);
     container := hex (r_container r) |}.

Definition to_Ref (table : list str) (r : ref) : Ref :=
  {| symbol_id := hex (ref_id r);
     ref_references := map (to_Reference table) (ref_list r) |}.

Definition to_Relation (r : relation) : Relation :=
  {| subject := byte_val (rel_subject r);
     predicate := byte_val (rel_predicate r);
     object := byte_val (rel_object r) |}.

Definition to_Source (table : list str) (x : source) : Source :=
  {| src_flags := byte_val (s_flags x); uri := entry table (s_uri x);
     digest := s_digest x;
     direct_includes := map (entry table) (s_includes x) |}.

Definition to_Command (table : list str) (c : command) : Command :=
  {| directory := entry table (c_directory c);
     cmd_commands := map (entry table) (c_args c) |}.

(** Records that the layout can carry: indices within the table, varint
    fields and counts below 2^35, ids of 8 bytes. *)

Definition location_ok (table : list str) (l : location) : Prop :=
  index_ok table (file l) /\ var_ok (start_line l) /\ var_ok (start_column l)
  /\ var_ok (end_line l) /\ var_ok (end_column l).

Definition include_ok (table : list str) (h : include_header) : Prop :=
  index_ok table (header h) /\ var_ok (refs_with_directives h).

Definition count_ok {A} (l : list A) : Prop := var_ok (Z.of_nat (length l)).

Definition symbol_ok (table : list str) (y : symbol) : Prop :=
  length (sym_id y) = 8%nat
  /\ index_ok table (sym_name y) /\ index_ok table (sym_scope y)
  /\ index_ok table (sym_template_args y)
  /\ location_ok table (sym_definition y) /\ location_ok table (sym_declaration y)
  /\ var_ok (sym_references y)
  /\ index_ok table (sym_signature y) /\ index_ok table (sym_snippet y)
  /\ index_ok table (sym_documentation y) /\ index_ok table (sym_return_type y)
  /\ index_ok table (sym_type y)
  /\ count_ok (sym_includes y) /\ Forall (include_ok table) (sym_includes y).

Definition reference_ok (table : list str) (r : reference) : Prop :=
  location_ok table (r_location r) /\ length (r_container r) = 8%nat.

Definition ref_ok (table : list str) (r : ref) : Prop :=
  length (ref_id r) = 8%nat /\ count_ok (ref_list r)
  /\ Forall (reference_ok table) (ref_list r).

Definition source_ok (table : list str) (x : source) : Prop :=
  index_ok table (s_uri x) /\ length (s_digest x) = 8%nat
  /\ count_ok (s_includes x) /\ Forall (index_ok table) (s_includes x).

Definition command_ok (table : list str) (c : command) : Prop :=
  index_ok table (c_directory c) /\ count_ok (c_args c)
  /\ Forall (index_ok table) (c_args c).

End Wire.

(** ** Containers, written out *)

(** A chunk: its tag, the payload length on 4 bytes, the payload. *)
Definition chunk_bytes (c : list byte * list byte) : list byte :=
  fst c ++ int_to_bytes 4 (Z.of_nat (length (snd c))) ++ snd c.

(** A container: 4 bytes of magic, the size of what follows the size
    field, 4 bytes of format, the chunks. *)
Definition riff_container (magic format : list byte)
    (chunks : list (list byte * list byte)) : list byte :=
  let body := concat (map chunk_bytes chunks) in
  magic ++ int_to_bytes 4 (4 + Z.of_nat (length body)) ++ format ++ body.

(** A chunk that can be written: a tag of 4 bytes, a payload length that
    fits the 4-byte field. *)
Definition chunk_ok (c : list byte * list byte) : Prop :=
  length (fst c) = 4%nat /\ Z.of_nat (length (snd c)) < 2 ^ 32.

Section Chunks.

Variable zlib_decompress : list byte -> Z -> option (list byte).

(** [parse_data] on the chunks of a list, one after the other, each
    result stored under the chunk's tag. *)
Fixpoint run_chunks (st : session) (chunks : list (list byte * list byte))
  : outcome session :=
  match chunks with
  | [] => Ok st
  | c :: chunks' =>
      match decode (fst c) with
      | None => Raise UnicodeDecodeError
      | Some id =>
          match parse_data zlib_decompress (fst st) id (snd c) with
          | Ok (v, self') => run_chunks (self', <[id := v]> (snd st)) chunks'
          | Raise e => Raise e
          | OutOfFuel => OutOfFuel
          end
      end
  end.

End Chunks.

(** ** More concrete inputs *)

Definition demo_table : list str := [Str "foo"; Str "bar"; []].

Definition demo_self : ClangIndex := set_string_table demo_table new_ClangIndex.

Definition demo_location : Wire.location :=
  {| Wire.file := 0; Wire.start_line := 1; Wire.start_column := 2;
     Wire.end_line := 3; Wire.end_column := 300 |}.

Definition demo_id : list byte := [x01; x23; x45; x67; x89; xab; xcd; xef].

Definition demo_symbol : Wire.symbol :=
  {| Wire.sym_id := demo_id; Wire.sym_kind := Function_; Wire.sym_lang := Cpp;
     Wire.sym_name := 0; Wire.sym_scope := 1; Wire.sym_template_args := 2;
     Wire.sym_definition := demo_location; Wire.sym_declaration := demo_location;
     Wire.sym_references := 5; Wire.sym_flags := x01;
     Wire.sym_signature := 0; Wire.sym_snippet := 2; Wire.sym_documentation := 2;
     Wire.sym_return_type := 1; Wire.sym_type := 1;
     Wire.sym_includes := [ {| Wire.header := 0; Wire.refs_with_directives := 6 |} ] |}.

Definition demo_ref : Wire.ref :=
  {| Wire.ref_id := demo_id;
     Wire.ref_list := [ {| Wire.r_kind := x04; Wire.r_location := demo_location;
                           Wire.r_container := demo_id |} ] |}.

Definition demo_source : Wire.source :=
  {| Wire.s_flags := x01; Wire.s_uri := 0; Wire.s_digest := demo_id;
     Wire.s_includes := [1; 1] |}.

Definition demo_command : Wire.command :=
  {| Wire.c_directory := 1; Wire.c_args := [0; 1; 0] |}.

Definition tag_RIFF : list byte := [x52; x49; x46; x46].
Definition tag_CdIx : list byte := [x43; x64; x49; x78].
Definition tag_stri : list byte := [x73; x74; x72; x69].
Definition tag_cmdl : list byte := [x63; x6d; x64; x6c].
Definition tag_rela : list byte := [x72; x65; x6c; x61].

(** A string table followed by one command entry. *)
Definition demo_chunks : list (list byte * list byte) :=
  [ (tag_stri, [x08; x00; x00; x00] ++ foo_bar_stream);
    (tag_cmdl, Wire.command_bytes demo_command) ].

(** * Properties *)

(** ** Bytes and the cursor *)

Local Arguments Z.testbit : simpl never.
Local Arguments Z.land : simpl never.
Local Arguments Z.lor : simpl never.
Local Arguments Z.shiftl : simpl never.
Local Arguments Z.shiftr : simpl never.
Local Arguments Z.mul : simpl never.
Local Arguments Z.sub : simpl never.
Local Arguments Z.of_nat : simpl never.

Lemma byte_val_range (b : byte) : 0 <= byte_val b < 256.
Proof.
  unfold byte_val. pose proof (Byte.to_N_bounded b) as H.
  split; [lia |]. apply N2Z.inj_le in H. simpl in H. lia.
Qed.

Lemma byte_of_int_val (v : Z) : 0 <= v < 256 -> byte_val (byte_of_int v) = v.
Proof.
  intros Hv. unfold byte_of_int, byte_val.
  destruct (Byte.of_N (Z.to_N v)) as [b|] eqn:E.
  - apply Byte.to_of_N in E. rewrite E. lia.
  - apply Byte.of_N_None_iff in E. lia.
Qed.

Lemma more_bit (b : byte) :
  (Z.land (byte_val b) more =? 0) = negb (Z.testbit (byte_val b) 7).
Proof. destruct b; reflexivity. Qed.

Lemma lnot_more_mask (b : byte) :
  Z.land (byte_val b) (Z.lnot more) = Z.land (byte_val b) 127.
Proof. destruct b; reflexivity. Qed.

Lemma low_byte_mask (b : byte) :
  Z.testbit (byte_val b) 7 = false -> Z.land (byte_val b) 127 = byte_val b.
Proof. destruct b; simpl; intros H; try reflexivity; discriminate H. Qed.

Lemma advance_0 (s : stream) : advance 0 s = s.
Proof. destruct s as [b p]. unfold advance. simpl. f_equal. lia. Qed.

Lemma rest_advance (n : nat) (s : stream) : rest (advance n s) = skipn n (rest s).
Proof.
  unfold advance, rest. simpl. rewrite <- drop_drop.
  destruct (Nat.le_gt_cases n (length (drop (pos s) (buf s)))) as [H|H].
  - by rewrite Nat.min_l.
  - rewrite Nat.min_r by lia.
    rewrite drop_all. symmetry. apply drop_ge. lia.
Qed.

Lemma advance_advance (n m : nat) (s : stream) :
  advance m (advance n s) = advance (n + m) s.
Proof.
  unfold advance at 1 3. rewrite rest_advance, length_drop.
  unfold advance. simpl. f_equal. lia.
Qed.

Lemma read_eq (n : nat) (s : stream) :
  read n s = Ok (firstn n (rest s), advance n s).
Proof. unfold read, advance, rest. by rewrite length_take. Qed.

Lemma peek_byte (i : nat) (s : stream) : exists x, peek i s = byte_val x.
Proof.
  unfold peek. destruct (nth_in_or_default i (map byte_val (rest s)) 0) as [H|H].
  - apply in_map_iff in H as (x & Hx & _). eauto.
  - exists x00. by rewrite H.
Qed.

Lemma consume8_eq (s : stream) : consume8 s = Ok (peek 0 s, advance 1 s).
Proof.
  unfold consume8, bind. rewrite read_eq. unfold ret, peek.
  destruct (rest s) as [|b r]; simpl; [done |].
  do 2 f_equal. destruct r; simpl; lia.
Qed.

Lemma seen_cons (s : stream) :
  exists t, seen s = peek 0 s :: t /\
            (Z.testbit (peek 0 s) 7 = true -> t = seen (advance 1 s)).
Proof.
  unfold seen, peek. rewrite rest_advance.
  destruct (rest s) as [|b r]; simpl.
  - exists []. split; [done | discriminate].
  - exists (map byte_val r ++ [0]). by rewrite drop_0.
Qed.

(** ** The varint decoder *)

Lemma consume_var_loop_eq (fuel : nat) :
  forall (x : byte) (val : Z) (s : stream),
    (fuel <= 4)%nat ->
    let shift := 35 - 7 * Z.of_nat fuel in
    let g := if Z.testbit (byte_val x) 7 then var_bytes fuel (seen s) else [] in
    consume_var_loop fuel (byte_val x) val shift s
    = Ok (Z.lor val (var_value shift g), advance (length g) s).
Proof.
  induction fuel as [|fuel IH]; intros x val s Hfuel shift g.
  - subst shift g. cbn [consume_var_loop var_bytes]. rewrite andb_false_r.
    unfold ret. destruct (Z.testbit (byte_val x) 7);
      cbn [var_value length]; by rewrite Z.lor_0_r, advance_0.
  - assert (Hs : (shift <? 32) = true) by (subst shift; apply Z.ltb_lt; lia).
    cbn [consume_var_loop]. rewrite more_bit, Hs, andb_true_r, negb_involutive.
    subst g. destruct (Z.testbit (byte_val x) 7) eqn:Hx.
    + unfold bind at 1. rewrite consume8_eq.
      destruct (seen_cons s) as (t & Hseen & Ht).
      destruct (peek_byte 0 s) as (x' & Hx').
      rewrite Hx' in *. rewrite lnot_more_mask.
      replace (shift + 7) with (35 - 7 * Z.of_nat fuel) by (subst shift; lia).
      rewrite IH by lia. rewrite advance_advance.
      rewrite Hseen. cbn [var_bytes var_value length].
      replace (35 - 7 * Z.of_nat fuel) with (shift + 7) by (subst shift; lia).
      destruct (Z.testbit (byte_val x') 7) eqn:Hx''.
      * rewrite <- Ht by done. by rewrite Z.lor_assoc.
      * cbn [var_value length]. by rewrite Z.lor_assoc.
    + unfold ret. cbn [negb var_value length]. by rewrite Z.lor_0_r, advance_0.
Qed.

Lemma var_bytes_S (n : nat) (b : Z) (bs : list Z) :
  var_bytes (S n) (b :: bs) = b :: (if Z.testbit b 7 then var_bytes n bs else []).
Proof. reflexivity. Qed.

Lemma consume_var_eq (s : stream) :
  consume_var s
  = Ok (var_value 0 (var_bytes 5 (seen s)),
        advance (length (var_bytes 5 (seen s))) s).
Proof.
  unfold consume_var, bind. rewrite consume8_eq.
  destruct (seen_cons s) as (t & Hseen & Ht).
  destruct (peek_byte 0 s) as (x & Hx).
  rewrite Hx in *. rewrite more_bit, Hseen, var_bytes_S.
  cbn [var_value length].
  destruct (Z.testbit (byte_val x) 7) eqn:Hbit; cbn [negb].
  - rewrite lnot_more_mask.
    pose proof (consume_var_loop_eq 4 x (Z.land (byte_val x) 127) (advance 1 s)) as H.
    cbv zeta in H. change (35 - 7 * Z.of_nat 4) with 7 in H.
    rewrite Hbit in H. rewrite H by lia.
    rewrite advance_advance, <- Ht by done. by rewrite Z.shiftl_0_r.
  - unfold ret. cbn [var_value length].
    by rewrite Z.shiftl_0_r, Z.lor_0_r, low_byte_mask.
Qed.

Lemma lor_bound (a b k : Z) :
  0 <= k -> 0 <= a < 2 ^ k -> 0 <= b < 2 ^ k -> 0 <= Z.lor a b < 2 ^ k.
Proof.
  intros Hk Ha Hb. assert (H0 : 0 <= Z.lor a b) by (apply Z.lor_nonneg; lia).
  split; [done |].
  destruct (Z.eq_dec (Z.lor a b) 0) as [E|E]; [lia |].
  destruct (Z.eq_dec k 0) as [->|Hk0].
  { change (2 ^ 0) with 1 in *. assert (a = 0) as -> by lia.
    assert (b = 0) as -> by lia. done. }
  apply Z.log2_lt_pow2; [lia |]. rewrite Z.log2_lor by lia.
  assert (Hlog : forall c, 0 <= c < 2 ^ k -> Z.log2 c < k).
  { intros c Hc. destruct (Z.eq_dec c 0) as [->|Hc0].
    - change (Z.log2 0) with 0. lia.
    - apply Z.log2_lt_pow2; lia. }
  apply Z.max_lub_lt; apply Hlog; lia.
Qed.

Lemma land_127_bound (b : Z) : 0 <= Z.land b 127 < 128.
Proof.
  change 127 with (Z.ones 7). rewrite Z.land_ones by lia.
  apply Z.mod_pos_bound. lia.
Qed.

Lemma var_value_bound (g : list Z) :
  forall shift, 0 <= shift ->
    0 <= var_value shift g < 2 ^ (shift + 7 * Z.of_nat (length g)).
Proof.
  induction g as [|b g IH]; intros shift Hs.
  - simpl. split; [lia |]. apply Z.pow_pos_nonneg; lia.
  - cbn [var_value length].
    replace (shift + 7 * Z.of_nat (S (length g)))
      with (shift + 7 + 7 * Z.of_nat (length g)) by lia.
    apply lor_bound; [lia | | apply IH; lia].
    rewrite Z.shiftl_mul_pow2 by lia.
    pose proof (land_127_bound b) as Hb.
    assert (0 < 2 ^ shift) by (apply Z.pow_pos_nonneg; lia).
    split; [nia |].
    apply Z.lt_le_trans with (128 * 2 ^ shift); [nia |].
    rewrite Z.pow_add_r, Z.pow_add_r by lia.
    assert (1 <= 2 ^ (7 * Z.of_nat (length g))).
    { pose proof (Z.pow_pos_nonneg 2 (7 * Z.of_nat (length g))). lia. }
    change (2 ^ 7) with 128. nia.
Qed.

Lemma var_bytes_length (n : nat) (bs : list Z) : (length (var_bytes n bs) <= n)%nat.
Proof.
  revert bs. induction n as [|n IH]; intros [|b bs]; simpl; try lia.
  destruct (Z.testbit b 7); simpl; [specialize (IH bs) |]; lia.
Qed.

Lemma var_bytes_seen_pos (n : nat) (s : stream) :
  (1 <= length (var_bytes (S n) (seen s)))%nat.
Proof.
  destruct (seen_cons s) as (t & -> & _). rewrite var_bytes_S. simpl. lia.
Qed.

(** How [var_bytes] stops on what a stream delivers: every byte but the
    last has its continuation bit set, and the last one has it clear unless
    the count is used up. *)
Lemma var_bytes_stop (n : nat) :
  forall (l : list Z) i b, var_bytes n (l ++ [0]) !! i = Some b ->
    (l ++ [0]) !! i = Some b /\
    (if decide (S i = length (var_bytes n (l ++ [0])))
     then Z.testbit b 7 = false \/ S i = n
     else Z.testbit b 7 = true).
Proof.
  induction n as [|n IH]; intros l i b; [by destruct l |].
  assert (Hl : exists b0 t, l ++ [0] = b0 :: t /\
            (Z.testbit b0 7 = true -> exists l', t = l' ++ [0])).
  { destruct l as [|b0 l]; [exists 0, [] | exists b0, (l ++ [0])];
      (split; [done |]); [done | eauto]. }
  destruct Hl as (b0 & t & -> & Ht). rewrite var_bytes_S.
  destruct i as [|i]; cbn [lookup list_lookup length].
  - intros [= ->]. split; [done |].
    destruct (Z.testbit b 7) eqn:Hb.
    + destruct (Ht eq_refl) as (l' & ->).
      destruct n as [|n].
      * change (var_bytes 0 (l' ++ [0])) with (@nil Z).
        destruct (decide _) as [_|Hne]; [by right | done].
      * assert (1 <= length (var_bytes (S n) (l' ++ [0%Z])))%nat.
        { destruct l'; simpl; lia. }
        destruct (decide _) as [Heq|_]; [lia | done].
    + cbn [length]. destruct (decide _) as [_|Hne]; [by left | done].
  - destruct (Z.testbit b0 7) eqn:Hb0; [| done].
    destruct (Ht eq_refl) as (l' & ->).
    intros H. destruct (IH l' i b H) as [H1 H2]. split; [done |].
    destruct (decide (S i = _)) as [E|E] in H2;
      destruct (decide (S (S i) = _)) as [E'|E']; try lia; try done.
    destruct H2 as [H2|H2]; [by left | right; lia].
Qed.

Lemma var_value_low (g : list Z) :
  forall shift n, 0 <= n < shift -> Z.testbit (var_value shift g) n = false.
Proof.
  induction g as [|b g IH]; intros shift n Hn; cbn [var_value].
  - apply Z.testbit_0_l.
  - rewrite Z.lor_spec, Z.shiftl_spec_low by lia.
    rewrite IH by lia. done.
Qed.

Lemma land_127_testbit (b k : Z) :
  0 <= k -> Z.testbit (Z.land b 127) k = Z.testbit b k && (k <? 7).
Proof.
  intros Hk. change 127 with (Z.ones 7).
  rewrite Z.land_spec, Z.testbit_ones_nonneg by lia.
  destruct (k <? 7) eqn:E; [apply Z.ltb_lt in E | apply Z.ltb_ge in E].
  - done.
  - done.
Qed.

(** Group [i] of a value sits at bits [7 * i .. 7 * i + 6] above [shift]. *)
Lemma var_value_testbit (g : list Z) :
  forall shift (i : nat) b k,
    0 <= shift -> g !! i = Some b -> 0 <= k < 7 ->
    Z.testbit (var_value shift g) (shift + 7 * Z.of_nat i + k) = Z.testbit b k.
Proof.
  induction g as [|b0 g IH]; intros shift i b k Hs Hi Hk; [done |].
  cbn [var_value]. rewrite Z.lor_spec, Z.shiftl_spec by lia.
  rewrite land_127_testbit by lia.
  destruct i as [|i]; simpl in Hi.
  - injection Hi as ->. rewrite var_value_low by lia.
    replace (shift + 7 * Z.of_nat 0 + k - shift) with k by lia.
    assert ((k <? 7) = true) as -> by (apply Z.ltb_lt; lia).
    by rewrite andb_true_r, orb_false_r.
  - assert ((shift + 7 * Z.of_nat (S i) + k - shift <? 7) = false) as ->
      by (apply Z.ltb_ge; lia).
    rewrite andb_false_r. cbn [orb].
    replace (shift + 7 * Z.of_nat (S i) + k)
      with (shift + 7 + 7 * Z.of_nat i + k) by lia.
    apply IH; [lia | done | lia].
Qed.

(** ** The standard encoder against the decoder *)

Lemma split7 (v : Z) : Z.lor (Z.land v 127) (Z.shiftl (Z.shiftr v 7) 7) = v.
Proof.
  apply Z.bits_inj'. intros n Hn.
  rewrite Z.lor_spec, land_127_testbit by lia.
  destruct (Z.ltb_spec n 7).
  - rewrite Z.shiftl_spec_low by lia. by rewrite andb_true_r, orb_false_r.
  - rewrite Z.shiftl_spec, Z.shiftr_spec by lia.
    rewrite andb_false_r. cbn [orb]. f_equal. lia.
Qed.

Lemma small_testbit7 (v : Z) : 0 <= v < 128 -> Z.testbit v 7 = false.
Proof.
  intros Hv. apply Z.testbit_false; [lia |].
  change (2 ^ 7) with 128. by rewrite Z.div_small.
Qed.

Lemma small_land_127 (v : Z) : 0 <= v < 128 -> Z.land v 127 = v.
Proof.
  intros Hv. change 127 with (Z.ones 7). rewrite Z.land_ones by lia.
  apply Z.mod_small. change (2 ^ 7) with 128. lia.
Qed.

Lemma cont_byte (v : Z) :
  let b := Z.lor (Z.land v 127) 128 in
  0 <= b < 256 /\ Z.testbit b 7 = true /\ Z.land b 127 = Z.land v 127.
Proof.
  intros b. subst b. split; [| split].
  - apply (lor_bound _ _ 8); [lia | | done].
    pose proof (land_127_bound v). change (2 ^ 8) with 256. lia.
  - rewrite Z.lor_spec. change (Z.testbit 128 7) with true. apply orb_true_r.
  - rewrite Z.land_lor_distr_l. change (Z.land 128 127) with 0.
    rewrite Z.lor_0_r, <- Z.land_assoc. done.
Qed.

Lemma encode_var_fuel_S (fuel : nat) (v : Z) :
  encode_var_fuel (S fuel) v
  = if v <? 128 then [byte_of_int v]
    else byte_of_int (Z.lor (Z.land v 127) 128)
           :: encode_var_fuel fuel (Z.shiftr v 7).
Proof. reflexivity. Qed.

Lemma encode_var_fuel_decodes (k : nat) :
  forall (v : Z) (tl : list Z) (n : nat) (shift : Z),
    0 <= v < 2 ^ (7 * Z.of_nat (S k)) -> (S k <= n)%nat -> 0 <= shift ->
    let e := map byte_val (encode_var_fuel (S k) v) in
    var_bytes n (e ++ tl) = e /\ var_value shift e = Z.shiftl v shift.
Proof.
  induction k as [|k IH]; intros v tl n shift Hv Hn Hs e;
    destruct n as [|n]; try lia; subst e; rewrite encode_var_fuel_S.
  - assert (Hlt : v < 128) by (change (2 ^ (7 * Z.of_nat 1)) with 128 in Hv; lia).
    apply Z.ltb_lt in Hlt as Hb. rewrite Hb. cbn [map app].
    rewrite byte_of_int_val, var_bytes_S, small_testbit7 by lia.
    cbn [var_value]. by rewrite small_land_127, Z.lor_0_r by lia.
  - destruct (Z.ltb_spec v 128) as [Hlt|Hge]; cbn [map app].
    + rewrite byte_of_int_val, var_bytes_S, small_testbit7 by lia.
      cbn [var_value]. by rewrite small_land_127, Z.lor_0_r by lia.
    + destruct (cont_byte v) as (Hb & Hbit & Hlow).
      rewrite byte_of_int_val, var_bytes_S, Hbit by done.
      assert (Hv' : 0 <= Z.shiftr v 7 < 2 ^ (7 * Z.of_nat (S k))).
      { rewrite Z.shiftr_div_pow2 by lia. split.
        - apply Z.div_pos; lia.
        - apply Z.div_lt_upper_bound; [lia |].
          rewrite <- Z.pow_add_r by lia.
          replace (7 + 7 * Z.of_nat (S k)) with (7 * Z.of_nat (S (S k))) by lia.
          lia. }
      destruct (IH (Z.shiftr v 7) tl n (shift + 7) Hv' ltac:(lia) ltac:(lia))
        as [IH1 IH2].
      rewrite IH1. split; [done |].
      cbn [var_value]. rewrite IH2, Hlow.
      rewrite (Z.add_comm shift 7), <- (Z.shiftl_shiftl _ 7 shift) by lia.
      by rewrite <- Z.shiftl_lor, split7.
Qed.

Lemma encode_var_fuel_enough (k : nat) :
  forall (fuel : nat) (v : Z),
    0 <= v < 2 ^ (7 * Z.of_nat (S k)) -> (S k <= fuel)%nat ->
    encode_var_fuel fuel v = encode_var_fuel (S k) v.
Proof.
  induction k as [|k IH]; intros fuel v Hv Hfuel;
    destruct fuel as [|fuel]; try lia; rewrite !encode_var_fuel_S.
  - assert (Hlt : v < 128) by (change (2 ^ (7 * Z.of_nat 1)) with 128 in Hv; lia).
    apply Z.ltb_lt in Hlt. by rewrite Hlt.
  - destruct (Z.ltb_spec v 128) as [Hlt|Hge]; [done |].
    f_equal. apply IH; [| lia].
    rewrite Z.shiftr_div_pow2 by lia. split.
    + apply Z.div_pos; lia.
    + apply Z.div_lt_upper_bound; [lia |].
      rewrite <- Z.pow_add_r by lia.
      replace (7 + 7 * Z.of_nat (S k)) with (7 * Z.of_nat (S (S k))) by lia.
      lia.
Qed.

Lemma encode_var_5 (v : Z) :
  0 <= v < 2 ^ 35 ->
  exists k, (S k <= 5)%nat /\ 0 <= v < 2 ^ (7 * Z.of_nat (S k)) /\
            encode_var v = encode_var_fuel (S k) v.
Proof.
  intros Hv. unfold encode_var.
  set (f := Z.to_nat (Z.log2 v)).
  assert (Hlog : v < 2 ^ Z.of_nat (S f)).
  { subst f. pose proof (Z.log2_nonneg v).
    rewrite Nat2Z.inj_succ, Z2Nat.id by done.
    destruct (Z.eq_dec v 0) as [->|]; [done |].
    apply Z.log2_spec. lia. }
  exists (Nat.min f 4). split; [lia |].
  assert (Hb : v < 2 ^ (7 * Z.of_nat (S (Nat.min f 4)))).
  { destruct (Nat.le_gt_cases f 4).
    - rewrite Nat.min_l by done. eapply Z.lt_le_trans; [exact Hlog |].
      apply Z.pow_le_mono_r; lia.
    - rewrite Nat.min_r by lia. change (2 ^ (7 * Z.of_nat 5)) with (2 ^ 35). lia. }
  split; [lia |]. apply encode_var_fuel_enough; lia.
Qed.

Lemma seen_BytesIO (bs tl : list byte) :
  seen (BytesIO (bs ++ tl)) = map byte_val bs ++ (map byte_val tl ++ [0]).
Proof. unfold seen, rest. simpl. by rewrite drop_0, map_app, <- app_assoc. Qed.

Lemma advance_BytesIO (n : nat) (data : list byte) :
  (n <= length data)%nat -> advance n (BytesIO data) = Stream data n.
Proof.
  intros Hn. unfold advance, rest. simpl. rewrite drop_0. f_equal. lia.
Qed.

Lemma consume_var_encode (v : Z) (tl : list byte) :
  0 <= v < 2 ^ 35 ->
  consume_var (BytesIO (encode_var v ++ tl))
  = Ok (v, Stream (encode_var v ++ tl) (length (encode_var v))).
Proof.
  intros Hv. destruct (encode_var_5 v) as (k & Hk & Hvk & E); [done |].
  rewrite consume_var_eq, seen_BytesIO, E.
  destruct (encode_var_fuel_decodes k v (map byte_val tl ++ [0]) 5 0)
    as [H1 H2]; [done | done | done |].
  rewrite H1, H2, Z.shiftl_0_r, length_map.
  rewrite advance_BytesIO by (rewrite length_app; lia). done.
Qed.

Lemma consume_var_five (b0 b1 b2 b3 b4 : byte) (tl : list byte) :
  Forall (fun b => Z.testbit (byte_val b) 7 = true) [b0; b1; b2; b3] ->
  consume_var (BytesIO (b0 :: b1 :: b2 :: b3 :: b4 :: tl))
  = Ok (var_value 0 (map byte_val [b0; b1; b2; b3; b4]),
        Stream (b0 :: b1 :: b2 :: b3 :: b4 :: tl) 5).
Proof.
  intros H. rewrite consume_var_eq.
  change (b0 :: b1 :: b2 :: b3 :: b4 :: tl) with ([b0; b1; b2; b3; b4] ++ tl).
  rewrite seen_BytesIO.
  assert (E : var_bytes 5 (map byte_val [b0; b1; b2; b3; b4]
                             ++ (map byte_val tl ++ [0]))
              = map byte_val [b0; b1; b2; b3; b4]).
  { inversion H as [|? ? H0 H']; subst. inversion H' as [|? ? H1 H'']; subst.
    inversion H'' as [|? ? H2 H''']; subst. inversion H''' as [|? ? H3 _]; subst.
    cbn [map app]. rewrite !var_bytes_S, H0, H1, H2, H3.
    by destruct (Z.testbit (byte_val b4) 7). }
  rewrite E. rewrite advance_BytesIO by (simpl; lia). done.
Qed.

(** C2.  On every stream [consume_var] returns a value: the groups it
    accumulates are the bytes [var_bytes 5] takes from what the stream
    delivers, at most five of them, byte [i] contributing its low 7 bits at
    bits [7 * i .. 7 * i + 6] (shifts 0, 7, 14, 21, 28).  Every byte before
    the last has its continuation bit set, and the last one either has it
    clear or is the fifth byte, after which the shift is 35: then nothing
    more is read, whatever its continuation bit, and the value accumulated
    so far is returned. *)
Theorem consume_var_policy (s : stream) :
  let g := var_bytes 5 (seen s) in
  consume_var s = Ok (var_value 0 g, advance (length g) s) /\
  (1 <= length g <= 5)%nat /\
  (forall (i : nat) (b : Z), g !! i = Some b ->
     seen s !! i = Some b /\
     (forall k, 0 <= k < 7 ->
        Z.testbit (var_value 0 g) (7 * Z.of_nat i + k) = Z.testbit b k) /\
     (if decide (S i = length g)
      then Z.testbit b 7 = false \/ i = 4%nat
      else Z.testbit b 7 = true)).
Proof.
  intros g. split; [apply consume_var_eq |]. split.
  - split; [apply var_bytes_seen_pos | apply var_bytes_length].
  - intros i b Hi. subst g. unfold seen in *.
    destruct (var_bytes_stop 5 _ i b Hi) as [H1 H2].
    split; [done |]. split.
    + intros k Hk. by apply (var_value_testbit _ 0 i b k).
    + destruct (decide _); [| done].
      destruct H2 as [H2|H2]; [by left | right; lia].
Qed.

Lemma consume_var_policy_witness :
  consume_var (BytesIO [xff; xff; xff; xff; xff; x01])
  = Ok (34359738367, Stream [xff; xff; xff; xff; xff; x01] 5).
Proof.
  exact (proj1 (consume_var_policy (BytesIO [xff; xff; xff; xff; xff; x01]))).
Defined.

(** C8.  A value below 2^32, written in the standard base-128 encoding, is
    read back unchanged by [consume_var], which stops right after the
    encoding; and when the first five bytes all carry a continuation bit
    (the encoding would go on), [consume_var] still returns: the low 7 bits
    of those five bytes at shifts 0 to 28, with the cursor after the fifth
    byte. *)
Theorem varint_roundtrip :
  (forall (v : Z) (tl : list byte),
     0 <= v < 2 ^ 32 ->
     consume_var (BytesIO (encode_var v ++ tl))
     = Ok (v, Stream (encode_var v ++ tl) (length (encode_var v)))) /\
  (forall (b0 b1 b2 b3 b4 : byte) (tl : list byte),
     Forall (fun b => Z.testbit (byte_val b) 7 = true) [b0; b1; b2; b3; b4] ->
     consume_var (BytesIO (b0 :: b1 :: b2 :: b3 :: b4 :: tl))
     = Ok (var_value 0 (map byte_val [b0; b1; b2; b3; b4]),
           Stream (b0 :: b1 :: b2 :: b3 :: b4 :: tl) 5)).
Proof.
  split.
  - intros v tl Hv. apply consume_var_encode. lia.
  - intros b0 b1 b2 b3 b4 tl H. apply consume_var_five.
    inversion H as [|? ? H0 H']; subst. inversion H' as [|? ? H1 H'']; subst.
    inversion H'' as [|? ? H2 H''']; subst. inversion H''' as [|? ? H3 _]; subst.
    by repeat constructor.
Qed.

Lemma varint_roundtrip_witness :
  consume_var (BytesIO (encode_var 4294967295 ++ [x2a]))
  = Ok (4294967295,
        Stream (encode_var 4294967295 ++ [x2a]) (length (encode_var 4294967295)))
  /\ consume_var (BytesIO [x81; x82; x83; x84; x85; x06])
     = Ok (var_value 0 (map byte_val [x81; x82; x83; x84; x85]),
           Stream [x81; x82; x83; x84; x85; x06] 5).
Proof.
  split.
  - apply (proj1 varint_roundtrip 4294967295 [x2a]). lia.
  - apply (proj2 varint_roundtrip x81 x82 x83 x84 x85 [x06]).
    repeat constructor.
Defined.

(** C10.  [consume_var] reads at most five bytes and its result lies
    between 0 and 2^35 - 1.  The bound is reached: five bytes 0xff give
    2^35 - 1, the fifth byte contributing all of its 7 bits at shift 28,
    so a result can need 35 bits.  A first byte without continuation bit is
    the result itself. *)
Theorem consume_var_35_bits :
  (forall s, exists v s',
      consume_var s = Ok (v, s') /\ buf s' = buf s /\
      (pos s <= pos s' <= pos s + 5)%nat /\ 0 <= v <= 2 ^ 35 - 1) /\
  consume_var (BytesIO [xff; xff; xff; xff; xff])
  = Ok (2 ^ 35 - 1, Stream [xff; xff; xff; xff; xff] 5) /\
  (forall (b0 b1 b2 b3 b4 : byte) (tl : list byte) (k : Z),
      Forall (fun b => Z.testbit (byte_val b) 7 = true) [b0; b1; b2; b3] ->
      0 <= k < 7 ->
      exists v, consume_var (BytesIO (b0 :: b1 :: b2 :: b3 :: b4 :: tl))
                = Ok (v, Stream (b0 :: b1 :: b2 :: b3 :: b4 :: tl) 5) /\
                Z.testbit v (28 + k) = Z.testbit (byte_val b4) k) /\
  (forall s, Z.testbit (peek 0 s) 7 = false ->
             consume_var s = Ok (peek 0 s, advance 1 s)).
Proof.
  split; [| split; [| split]].
  - intros s. eexists _, _. split; [apply consume_var_eq |].
    pose proof (var_bytes_length 5 (seen s)) as Hlen.
    split; [done |]. split; [unfold advance; cbn [pos]; lia |].
    pose proof (var_value_bound (var_bytes 5 (seen s)) 0 ltac:(lia)) as Hb.
    assert (2 ^ (0 + 7 * Z.of_nat (length (var_bytes 5 (seen s)))) <= 2 ^ 35)
      by (apply Z.pow_le_mono_r; lia).
    lia.
  - by rewrite consume_var_five by (repeat constructor).
  - intros b0 b1 b2 b3 b4 tl k H Hk. eexists. split.
    + by apply consume_var_five.
    + by apply (var_value_testbit _ 0 4%nat (byte_val b4) k).
  - intros s Hbit. rewrite consume_var_eq.
    destruct (seen_cons s) as (t & -> & _).
    destruct (peek_byte 0 s) as (x & Hx). rewrite Hx in *.
    rewrite var_bytes_S, Hbit. cbn [var_value length].
    by rewrite Z.shiftl_0_r, Z.lor_0_r, low_byte_mask.
Qed.

Lemma consume_var_35_bits_witness :
  consume_var (BytesIO [x2a; xff]) = Ok (42, Stream [x2a; xff] 1).
Proof.
  exact (proj2 (proj2 (proj2 consume_var_35_bits)) (BytesIO [x2a; xff]) eq_refl).
Defined.

(** ** Reads at the end of the buffer *)

Lemma consume_id_eq (s : stream) :
  consume_id s = Ok (hex (firstn 8 (rest s)), advance 8 s).
Proof. unfold consume_id, bind. by rewrite read_eq. Qed.

Lemma peek_advance (n i : nat) (s : stream) : peek i (advance n s) = peek (n + i) s.
Proof. unfold peek. rewrite rest_advance, <- skipn_map. apply nth_skipn. Qed.

Lemma peek_end (i : nat) (s : stream) : (length (rest s) <= i)%nat -> peek i s = 0.
Proof. intros H. unfold peek. apply nth_overflow. by rewrite length_map. Qed.

(** C7, as the code has it.  A read never fails: [read n] returns the
    bytes that remain, up to [n] of them, and moves the cursor by as many;
    on an exhausted buffer [consume8] returns 0 and [consume_id] returns
    the hexadecimal text of the bytes that are left, fewer than 16 digits
    when fewer than 8 bytes remain. *)
Theorem reads_return_what_remains (s : stream) (n : nat) :
  read n s = Ok (firstn n (rest s), advance n s) /\
  length (firstn n (rest s)) = Nat.min n (length (rest s)) /\
  pos (advance n s) = (pos s + Nat.min n (length (rest s)))%nat /\
  consume8 s = Ok (peek 0 s, advance 1 s) /\
  (if decide (rest s = []) then peek 0 s = 0 else True) /\
  consume_id s = Ok (hex (firstn 8 (rest s)), advance 8 s) /\
  length (hex (firstn 8 (rest s))) = (2 * Nat.min 8 (length (rest s)))%nat.
Proof.
  split; [apply read_eq |]. split; [apply length_take |].
  split; [done |]. split; [apply consume8_eq |]. split.
  - destruct (decide _) as [E|]; [| done]. apply peek_end. rewrite E. simpl. lia.
  - split; [apply consume_id_eq |].
    rewrite <- (length_take (rest s) 8).
    induction (take 8 (rest s)) as [|b l IH]; simpl; lia.
Qed.

(** C7, as stated, fails: with 3 bytes left an 8-byte read returns them,
    [consume_id] returns 6 digits, and [consume8] on an empty buffer
    returns 0. *)
Lemma short_reads_do_not_fail :
  (length (rest (BytesIO [x01; x02; x03])) < 8)%nat /\
  read 8 (BytesIO [x01; x02; x03])
  = Ok ([x01; x02; x03], Stream [x01; x02; x03] 3) /\
  consume_id (BytesIO [x01; x02; x03])
  = Ok (Str "010203", Stream [x01; x02; x03] 3) /\
  (length (rest (BytesIO [])) < 1)%nat /\
  consume8 (BytesIO []) = Ok (0, Stream [] 0).
Proof. repeat split; simpl; lia. Qed.

(** ** Record decoders: progress, errors and the end of the chunk *)

Lemma reads_le {A} (k j : nat) (m : M A) : reads k m -> (j <= k)%nat -> reads j m.
Proof.
  intros H Hj s. specialize (H s). destruct (m s) as [[a s']|e|]; try done.
  destruct H as (n & Hn & ->). exists n. split; [lia | done].
Qed.

Lemma reads_ret {A} (a : A) : reads 0 (ret a).
Proof. intros s. exists 0%nat. by rewrite advance_0. Qed.

Lemma reads_raise {A} (e : exn) : record_error e -> reads 0 (@raise A e).
Proof. by intros H s. Qed.

Lemma reads_bind {A B} (k j : nat) (m : M A) (f : A -> M B) :
  reads k m -> (forall a, reads j (f a)) -> reads (k + j) (bind m f).
Proof.
  intros Hm Hf s. unfold bind. specialize (Hm s).
  destruct (m s) as [[a s']|e|]; try done.
  destruct Hm as (n & Hn & ->). specialize (Hf a (advance n s)).
  destruct (f a (advance n s)) as [[b s'']|e|]; try done.
  destruct Hf as (n' & Hn' & ->). exists (n + n')%nat.
  split; [lia | apply advance_advance].
Qed.

Lemma reads_bind_first {A B} (k : nat) (m : M A) (f : A -> M B) :
  reads k m -> (forall a, reads 0 (f a)) -> reads k (bind m f).
Proof. intros Hm Hf. eapply reads_le; [by apply reads_bind | lia]. Qed.

Lemma reads_read (n : nat) : reads n (read n).
Proof. intros s. rewrite read_eq. by exists n. Qed.

Lemma reads_consume8 : reads 1 consume8.
Proof. intros s. rewrite consume8_eq. by exists 1%nat. Qed.

Lemma reads_consume_id : reads 8 consume_id.
Proof. intros s. rewrite consume_id_eq. by exists 8%nat. Qed.

Lemma reads_consume_var : reads 1 consume_var.
Proof.
  intros s. rewrite consume_var_eq. eexists. split; [| done].
  apply var_bytes_seen_pos.
Qed.

Lemma reads_enum_call {E} (of_int : Z -> option E) (v : Z) :
  reads 0 (enum_call of_int v).
Proof.
  unfold enum_call. destruct (of_int v); [apply reads_ret |].
  apply reads_raise. right. right. eauto.
Qed.

Lemma reads_consume_string (self : ClangIndex) : reads 1 (consume_string self).
Proof.
  unfold consume_string. apply reads_bind_first; [apply reads_consume_var |].
  intros idx. destruct (string_table self) as [table|].
  - destruct (getitem table idx); [apply reads_ret |].
    apply reads_raise. by left.
  - apply reads_raise. right. by left.
Qed.

Lemma reads_for_range {A} (n : nat) (body : M A) :
  reads 0 body -> reads 0 (for_range n body).
Proof.
  intros Hb. induction n as [|n IH]; simpl; [apply reads_ret |].
  apply (reads_bind 0 0); [done |]. intros x.
  apply (reads_bind 0 0); [done |]. intros xs. apply reads_ret.
Qed.

Ltac reads_step :=
  first
    [ apply reads_ret
    | apply reads_enum_call
    | apply reads_for_range
    | apply (reads_le 1 0); [apply reads_consume8 | lia]
    | apply (reads_le 1 0); [apply reads_consume_var | lia]
    | apply (reads_le 1 0); [apply reads_consume_string | lia]
    | apply (reads_le 8 0); [apply reads_consume_id | lia]
    | apply (reads_le _ 0); [apply reads_read | lia]
    | apply (reads_bind 0 0); [| intros ?] ].

Ltac reads_body first_read :=
  apply reads_bind_first; [first_read | intros ?]; repeat reads_step.

Lemma reads_read_location (self : ClangIndex) : reads 1 (read_location self).
Proof. unfold read_location. reads_body ltac:(apply reads_consume_string). Qed.

Ltac reads_step' :=
  first [ reads_step
        | apply (reads_le 1 0); [apply reads_read_location | lia] ].

Lemma reads_read_include_header (self : ClangIndex) :
  reads 1 (read_include_header self).
Proof. unfold read_include_header. reads_body ltac:(apply reads_consume_string). Qed.

Lemma reads_read_symbol (self : ClangIndex) : reads 1 (read_symbol self).
Proof.
  unfold read_symbol.
  apply reads_bind_first;
    [apply (reads_le 8 1); [apply reads_consume_id | lia] | intros ?].
  repeat reads_step'.
Qed.

Lemma reads_read_reference (self : ClangIndex) : reads 1 (read_reference self).
Proof.
  unfold read_reference. reads_body ltac:(apply reads_consume8).
Qed.

Lemma reads_read_ref (self : ClangIndex) : reads 1 (read_ref self).
Proof.
  unfold read_ref.
  apply reads_bind_first;
    [apply (reads_le 8 1); [apply reads_consume_id | lia] | intros ?].
  repeat reads_step'.
Qed.

Lemma reads_read_relation : reads 1 read_relation.
Proof. unfold read_relation. reads_body ltac:(apply reads_consume8). Qed.

Lemma reads_read_source (self : ClangIndex) : reads 1 (read_source self).
Proof. unfold read_source. reads_body ltac:(apply reads_read). Qed.

Lemma reads_read_command (self : ClangIndex) : reads 1 (read_command self).
Proof. unfold read_command. reads_body ltac:(apply reads_consume_string). Qed.

Lemma advance_pos (n : nat) (s : stream) :
  (pos s <= length (buf s))%nat ->
  buf (advance n s) = buf s /\
  (pos (advance n s) <= length (buf s))%nat /\
  ((1 <= n)%nat -> (pos s < length (buf s))%nat -> (pos s < pos (advance n s))%nat).
Proof.
  intros H. unfold advance, rest. cbn [buf pos]. rewrite length_drop.
  split; [done |]. split; lia.
Qed.

Lemma while_records_ends {A} (body : M A) (data : list byte) (fuel : nat) :
  reads 1 body ->
  forall (acc : list A) (s : stream),
    buf s = data -> (pos s <= length data)%nat ->
    (length data - pos s < fuel)%nat ->
    ends_at_chunk_end data (while_records fuel data body acc s).
Proof.
  intros Hbody. induction fuel as [|fuel IH]; intros acc s Hbuf Hpos Hfuel; [lia |].
  cbn [while_records]. destruct (Nat.ltb_spec (pos s) (length data)) as [Hlt|Hge].
  - specialize (Hbody s). destruct (body s) as [[r s']|e|]; try done.
    destruct Hbody as (n & Hn & ->). subst data.
    destruct (advance_pos n s Hpos) as (H1 & H2 & H3).
    specialize (H3 Hn Hlt). apply IH; [done | done | lia].
  - simpl. lia.
Qed.

Lemma decode_records_ends {A} (body : M A) (data : list byte) :
  reads 1 body -> ends_at_chunk_end data (decode_records body data).
Proof.
  intros H. unfold decode_records. apply while_records_ends; simpl; try done; lia.
Qed.

(** The [rela] decoder has no way to fail. *)
Lemma read_relation_eq (s : stream) :
  read_relation s
  = Ok ({| subject := peek 0 s; predicate := peek 1 s; object := peek 2 s |},
        advance 3 s).
Proof.
  unfold read_relation, bind, ret.
  rewrite !consume8_eq, !advance_advance, !peek_advance. done.
Qed.

Lemma while_relations_return (data : list byte) (fuel : nat) :
  forall (acc : list Relation) (s : stream),
    buf s = data -> (pos s <= length data)%nat ->
    (length data - pos s < fuel)%nat ->
    exists l s', while_records fuel data read_relation acc s = Ok (l, s').
Proof.
  induction fuel as [|fuel IH]; intros acc s Hbuf Hpos Hfuel; [lia |].
  cbn [while_records]. destruct (Nat.ltb_spec (pos s) (length data)) as [Hlt|Hge].
  - rewrite read_relation_eq. subst data.
    destruct (advance_pos 3 s Hpos) as (H1 & H2 & H3).
    specialize (H3 ltac:(lia) Hlt).
    apply IH; [done | done | lia].
  - eauto.
Qed.

(** C1, as the code has it.  No record decoder notices that a payload ends
    partway through a record.  On every payload, each of the five decoders
    ends its loop without running out of fuel; it raises nothing but the
    errors of string lookups and enumerations ([rela], which has neither,
    always returns); and whenever it returns records, its cursor is exactly
    at the end of the payload. *)
Theorem record_decoders_end_at_chunk_end (self : ClangIndex) (data : list byte) :
  ends_at_chunk_end data (decode_records (read_symbol self) data) /\
  ends_at_chunk_end data (decode_records (read_ref self) data) /\
  ends_at_chunk_end data (decode_records read_relation data) /\
  ends_at_chunk_end data (decode_records (read_source self) data) /\
  ends_at_chunk_end data (decode_records (read_command self) data) /\
  (exists l s', decode_records read_relation data = Ok (l, s')).
Proof.
  repeat split; try apply decode_records_ends.
  - apply reads_read_symbol.
  - apply reads_read_ref.
  - apply reads_read_relation.
  - apply reads_read_source.
  - apply reads_read_command.
  - unfold decode_records. apply while_relations_return; simpl; try done; lia.
Qed.

(** C1, as stated, fails: the 6-byte [rela] payload 01 .. 06 holds two
    relations; without its last byte the decoder still returns two, the
    missing byte read as 0. *)
Lemma truncated_rela_payload_decodes :
  decode_records read_relation [x01; x02; x03; x04; x05; x06]
  = Ok ([ {| subject := 1; predicate := 2; object := 3 |};
          {| subject := 4; predicate := 5; object := 6 |} ],
        Stream [x01; x02; x03; x04; x05; x06] 6) /\
  decode_records read_relation [x01; x02; x03; x04; x05]
  = Ok ([ {| subject := 1; predicate := 2; object := 3 |};
          {| subject := 4; predicate := 5; object := 0 |} ],
        Stream [x01; x02; x03; x04; x05] 5) /\
  parse_rela new_ClangIndex [x01; x02; x03; x04; x05]
  = Ok ([ {| subject := 1; predicate := 2; object := 3 |};
          {| subject := 4; predicate := 5; object := 0 |} ],
        set_relations [ {| subject := 1; predicate := 2; object := 3 |};
                        {| subject := 4; predicate := 5; object := 0 |} ]
          new_ClangIndex).
Proof. repeat split. Qed.

(** ** The string table *)

Lemma getitem_nonneg {A} (l : list A) (i : Z) :
  0 <= i -> getitem l i = l !! Z.to_nat i.
Proof.
  intros Hi. unfold getitem.
  destruct (Z.ltb_spec i (Z.of_nat (length l))) as [Hlt|Hge].
  - assert ((0 <=? i) = true) as -> by (by apply Z.leb_le). done.
  - rewrite andb_false_r.
    assert ((i <? 0) = false) as -> by (apply Z.ltb_ge; lia).
    rewrite andb_false_r. symmetry. apply lookup_ge_None_2. lia.
Qed.

Lemma consume_var_nonneg (s : stream) (i : Z) (s' : stream) :
  consume_var s = Ok (i, s') -> 0 <= i.
Proof.
  rewrite consume_var_eq. intros [= <- _].
  apply (var_value_bound _ 0). lia.
Qed.

Lemma consume_string_eq (self : ClangIndex) (table : list str)
    (s : stream) (i : Z) (s' : stream) :
  string_table self = Some table ->
  consume_var s = Ok (i, s') ->
  consume_string self s
  = match table !! Z.to_nat i with
    | Some str => Ok (str, s')
    | None => Raise IndexError
    end.
Proof.
  intros Ht Hv. unfold consume_string, bind. rewrite Hv, Ht.
  rewrite getitem_nonneg by (by eapply consume_var_nonneg).
  by destruct (table !! Z.to_nat i).
Qed.

Section StringTable.

Variable zlib_decompress : list byte -> Z -> option (list byte).

Lemma parse_stri_ok (self : ClangIndex) (data : list byte)
    (table : list str) (self' : ClangIndex) :
  parse_stri zlib_decompress self data = Ok (table, self') ->
  exists raw text,
    zlib_decompress (skipn 4 data) (int_from_bytes (firstn 4 data)) = Some raw /\
    decode raw = Some text /\ table = split 0 text /\
    self' = set_string_table table self.
Proof.
  unfold parse_stri.
  destruct (zlib_decompress _ _) as [raw|]; [| done].
  destruct (decode raw) as [text|] eqn:Hd; [| done].
  intros H. injection H as H1 H2. subst table self'. by exists raw, text.
Qed.

(** C4.  Let [table] be the string table that [parse_stri] built, the
    pieces of the null-split of the decompressed text.  A string lookup
    whose index [i] (the varint read by [consume_string]) is below the
    number of entries returns entry [i] of the table; with [i] at or
    above that number it raises [IndexError].  Every index below 2^35 can be
    asked for: it is what [consume_string] reads from its standard
    encoding. *)
Theorem string_lookup (self : ClangIndex) (data : list byte)
    (table : list str) (self' : ClangIndex) :
  parse_stri zlib_decompress self data = Ok (table, self') ->
  (exists raw text,
      zlib_decompress (skipn 4 data) (int_from_bytes (firstn 4 data)) = Some raw /\
      decode raw = Some text /\ table = split 0 text) /\
  (forall (s : stream) (i : Z) (s' : stream),
      consume_var s = Ok (i, s') ->
      0 <= i /\
      (i < Z.of_nat (length table) ->
       exists str, table !! Z.to_nat i = Some str /\
                   consume_string self' s = Ok (str, s')) /\
      (Z.of_nat (length table) <= i -> consume_string self' s = Raise IndexError)) /\
  (forall (i : Z) (tl : list byte),
      0 <= i < 2 ^ 35 ->
      consume_string self' (BytesIO (encode_var i ++ tl))
      = match table !! Z.to_nat i with
        | Some str => Ok (str, Stream (encode_var i ++ tl) (length (encode_var i)))
        | None => Raise IndexError
        end).
Proof.
  intros H. destruct (parse_stri_ok _ _ _ _ H) as (raw & text & Hz & Hd & Ht & ->).
  split; [by exists raw, text |]. split.
  - intros s i s' Hv. pose proof (consume_var_nonneg _ _ _ Hv) as Hi.
    split; [done |]. split.
    + intros Hlt.
      destruct (lookup_lt_is_Some_2 table (Z.to_nat i)) as [str Hstr]; [lia |].
      exists str. split; [done |].
      rewrite (consume_string_eq _ table s i s') by done. by rewrite Hstr.
    + intros Hge. rewrite (consume_string_eq _ table s i s') by done.
      rewrite lookup_ge_None_2; [done | lia].
  - intros i tl Hi. by apply consume_string_eq, consume_var_encode.
Qed.

(** C3, as the code has it.  [parse_stri] raises [zlib.error] when the
    decompressor fails, and [UnicodeDecodeError] when the decompressed
    bytes are no UTF-8 text; otherwise it returns the null-split of the
    text, however many bytes were decompressed.  The size field only
    travels to the decompressor as [bufsize]: with a decompressor whose
    result does not depend on [bufsize], two payloads that differ in the
    first four bytes only have the same outcome. *)
Theorem parse_stri_outcomes (self : ClangIndex) (data : list byte) :
  let size := int_from_bytes (firstn 4 data) in
  (zlib_decompress (skipn 4 data) size = None ->
   parse_stri zlib_decompress self data = Raise zlib_error) /\
  (forall raw,
     zlib_decompress (skipn 4 data) size = Some raw ->
     parse_stri zlib_decompress self data
     = match decode raw with
       | Some text => Ok (split 0 text, set_string_table (split 0 text) self)
       | None => Raise UnicodeDecodeError
       end) /\
  (forall data',
     (forall c n m, zlib_decompress c n = zlib_decompress c m) ->
     skipn 4 data' = skipn 4 data ->
     parse_stri zlib_decompress self data' = parse_stri zlib_decompress self data).
Proof.
  intros size. split; [| split].
  - intros H. unfold parse_stri. fold size. by rewrite H.
  - intros raw H. unfold parse_stri. fold size. by rewrite H.
  - intros data' Hz Hd. unfold parse_stri. rewrite Hd.
    by rewrite (Hz _ _ (int_from_bytes (firstn 4 data))).
Qed.

End StringTable.

Lemma string_lookup_witness :
  parse_stri inflate_stored new_ClangIndex ([x08; x00; x00; x00] ++ foo_bar_stream)
  = Ok ([Str "foo"; Str "bar"; []],
        set_string_table [Str "foo"; Str "bar"; []] new_ClangIndex) /\
  (exists str,
      [Str "foo"; Str "bar"; []] !! 1%nat = Some str /\
      consume_string (set_string_table [Str "foo"; Str "bar"; []] new_ClangIndex)
        (BytesIO [x01])
      = Ok (str, Stream [x01] 1)) /\
  consume_string (set_string_table [Str "foo"; Str "bar"; []] new_ClangIndex)
    (BytesIO [x03])
  = Raise IndexError.
Proof.
  assert (H : parse_stri inflate_stored new_ClangIndex
                ([x08; x00; x00; x00] ++ foo_bar_stream)
              = Ok ([Str "foo"; Str "bar"; []],
                    set_string_table [Str "foo"; Str "bar"; []] new_ClangIndex))
    by reflexivity.
  split; [exact H |]. split.
  - apply (proj1 (proj2 (string_lookup inflate_stored _ _ _ _ H))
             (BytesIO [x01]) 1 (Stream [x01] 1) eq_refl).
    simpl. lia.
  - apply (proj1 (proj2 (string_lookup inflate_stored _ _ _ _ H))
             (BytesIO [x03]) 3 (Stream [x03] 1) eq_refl).
    simpl. lia.
Defined.

Lemma parse_stri_outcomes_witness :
  parse_stri inflate_stored new_ClangIndex ([x05; x00; x00; x00] ++ foo_bar_stream)
  = parse_stri inflate_stored new_ClangIndex ([x08; x00; x00; x00] ++ foo_bar_stream).
Proof.
  apply (proj2 (proj2 (parse_stri_outcomes inflate_stored new_ClangIndex
                         ([x08; x00; x00; x00] ++ foo_bar_stream)))).
  - intros c n m. reflexivity.
  - reflexivity.
Defined.

(** C3, as stated, fails: the size field says 5, the block holds the 8
    bytes [foo\0bar\0], and [parse_stri] returns the table built from all
    8 of them. *)
Lemma size_mismatch_not_detected :
  let payload := [x05; x00; x00; x00] ++ foo_bar_stream in
  int_from_bytes (firstn 4 payload) = 5 /\
  inflate_stored (skipn 4 payload) 5
  = Some [x66; x6f; x6f; x00; x62; x61; x72; x00] /\
  parse_stri inflate_stored new_ClangIndex payload
  = Ok ([Str "foo"; Str "bar"; []],
        set_string_table [Str "foo"; Str "bar"; []] new_ClangIndex).
Proof. repeat split. Qed.

(** ** The chunk dispatcher *)

Lemma rest_BytesIO (data : list byte) : rest (BytesIO data) = data.
Proof. unfold rest. simpl. apply drop_0. Qed.

Lemma read_header_eq (contents : list byte) :
  read_header (BytesIO contents)
  = Ok (riff_size contents, advance 12 (BytesIO contents)).
Proof.
  unfold read_header, bind, ret. rewrite !read_eq, !advance_advance.
  by rewrite rest_advance, rest_BytesIO.
Qed.

Lemma next_chunk_eq (file : stream) :
  let size := Z.to_nat (int_from_bytes (firstn 4 (skipn 4 (rest file)))) in
  next_chunk file
  = match decode (firstn 4 (rest file)) with
    | Some id => Ok ((id, firstn size (skipn 8 (rest file))),
                     advance (8 + size) file)
    | None => Raise UnicodeDecodeError
    end.
Proof.
  intros size. unfold next_chunk, parse_chunk, bind, ret.
  rewrite !read_eq. cbn [fst snd].
  rewrite !advance_advance, !rest_advance. fold size.
  by destruct (decode (take 4 (rest file))).
Qed.


Lemma next_chunk_progress (file : stream) (id : str) (data : list byte)
    (file' : stream) :
  next_chunk file = Ok ((id, data), file') ->
  id <> [] ->
  (pos file <= length (buf file))%nat ->
  buf file' = buf file /\ (pos file < pos file' <= length (buf file))%nat.
Proof.
  rewrite next_chunk_eq. intros H Hid Hpos.
  destruct (decode (take 4 (rest file))) as [id'|] eqn:Hd; [| done].
  injection H as -> _ <-.
  assert (Hrest : rest file <> []).
  { intros E. rewrite E in Hd. by injection Hd as <-. }
  assert (Hlt : (pos file < length (buf file))%nat).
  { unfold rest in Hrest. destruct (Nat.lt_ge_cases (pos file) (length (buf file)));
      [done |]. by rewrite drop_ge in Hrest. }
  destruct (advance_pos (8 + Z.to_nat (int_from_bytes (take 4 (drop 4 (rest file)))))
              file Hpos) as (H1 & H2 & H3).
  split; [done |]. split; [apply H3; [lia | done] | done].
Qed.

Section Dispatch.

Variable zlib_decompress : list byte -> Z -> option (list byte).

Lemma parse_data_unknown (self : ClangIndex) (id : str) (data : list byte) :
  id ∉ chunk_tags ->
  parse_data zlib_decompress self id data = Raise (ValueError_unknown_chunk id).
Proof.
  intros H. unfold parse_data.
  repeat (case_bool_decide as E;
          [exfalso; apply H; rewrite E; unfold chunk_tags;
           repeat first [apply list_elem_of_here | apply list_elem_of_further]
          | clear E]).
  done.
Qed.

Lemma parse_data_ok_tag (self : ClangIndex) (id : str) (data : list byte)
    (r : chunk_value * ClangIndex) :
  parse_data zlib_decompress self id data = Ok r -> id ∈ chunk_tags.
Proof.
  intros H. destruct (decide (id ∈ chunk_tags)) as [|Hn]; [done |].
  by rewrite parse_data_unknown in H.
Qed.

Lemma chunk_tags_nonempty (id : str) : id ∈ chunk_tags -> id <> [].
Proof.
  unfold chunk_tags. intros H ->.
  repeat (apply elem_of_cons in H as [H|H]; [vm_compute in H; discriminate |]).
  by apply elem_of_nil in H.
Qed.

Lemma parse_one_chunk_ok (st : session) (file : stream) (st' : session)
    (file' : stream) :
  parse_one_chunk zlib_decompress st file = Ok (st', file') ->
  exists id data v self',
    next_chunk file = Ok ((id, data), file') /\
    parse_data zlib_decompress (fst st) id data = Ok (v, self') /\
    st' = (self', <[id := v]> (snd st)).
Proof.
  unfold parse_one_chunk, bind, lift, ret.
  destruct (next_chunk file) as [[[id data] f1]|e|]; try done. cbn [fst snd].
  destruct (parse_data _ _ _ _) as [[v self']|e|] eqn:Hp; try done.
  intros [= <- <-]. by exists id, data, v, self'.
Qed.

Lemma parse_one_chunk_round (st : session) (file : stream) (id : str)
    (data : list byte) (file' : stream) :
  next_chunk file = Ok ((id, data), file') ->
  parse_one_chunk zlib_decompress st file
  = match parse_data zlib_decompress (fst st) id data with
    | Ok (v, self') => Ok ((self', <[id := v]> (snd st)), file')
    | Raise e => Raise e
    | OutOfFuel => OutOfFuel
    end.
Proof.
  intros H. unfold parse_one_chunk, bind, lift, ret. rewrite H. cbn [fst snd].
  by destruct (parse_data _ _ _ _) as [[v self']|e|].
Qed.

(** What holds whenever the loop tests its condition: the file object is
    within its contents, the fuel left is enough, and the dictionary holds
    under each tag what the log holds last. *)
Lemma rounds_inv (contents : list byte) (log : list (str * chunk_value))
    (st : session) (file : stream) :
  rounds zlib_decompress contents log st file ->
  buf file = contents /\ (pos file <= length contents)%nat /\
  (forall id, snd st !! id = last_under id log) /\
  exists fuel,
    (length contents - pos file < fuel)%nat /\
    parse_chunks zlib_decompress (S (length contents)) (riff_size contents)
      (new_ClangIndex, ∅) (advance 12 (BytesIO contents))
    = parse_chunks zlib_decompress fuel (riff_size contents) st file.
Proof.
  induction 1 as [|log st file id data file' v self' _ IH Hcond Hnext Hdata].
  - split; [done |]. split.
    { destruct (advance_pos 12 (BytesIO contents)) as (_ & H2 & _);
        [cbn [pos buf BytesIO]; lia | exact H2]. }
    split; [intros id; apply lookup_empty |].
    exists (S (length contents)). split; [lia | done].
  - destruct IH as (Hbuf & Hpos & Hlog & fuel & Hfuel & Hrun).
    pose proof (chunk_tags_nonempty _ (parse_data_ok_tag _ _ _ _ Hdata)) as Hid.
    destruct (next_chunk_progress _ _ _ _ Hnext Hid) as [Hbuf' Hpos'];
      [by rewrite Hbuf |].
    rewrite Hbuf in *. split; [done |]. split; [lia |]. split.
    + intros id'. unfold last_under. rewrite filter_app, filter_cons, filter_nil.
      cbn [fst snd]. destruct (decide (id = id')) as [->|Hne].
      * by rewrite last_snoc, lookup_insert_eq.
      * rewrite app_nil_r, lookup_insert_ne by done. apply Hlog.
    + destruct fuel as [|fuel]; [lia |]. exists fuel. split; [lia |].
      rewrite Hrun. cbn [parse_chunks].
      apply Z.ltb_lt in Hcond. rewrite Hcond.
      by rewrite (parse_one_chunk_round _ _ _ _ _ Hnext), Hdata.
Qed.

Lemma rounds_raise (contents : list byte) (log : list (str * chunk_value))
    (st : session) (file : stream) (e : exn) :
  rounds zlib_decompress contents log st file ->
  Z.of_nat (pos file) < riff_size contents ->
  parse_one_chunk zlib_decompress st file = Raise e ->
  parse_riff_file zlib_decompress contents = Raise e.
Proof.
  intros Hr Hcond He.
  destruct (rounds_inv _ _ _ _ Hr) as (_ & _ & _ & fuel & Hfuel & Hrun).
  unfold parse_riff_file, bind. rewrite read_header_eq, Hrun.
  destruct fuel as [|fuel]; [lia |]. cbn [parse_chunks].
  apply Z.ltb_lt in Hcond. by rewrite Hcond, He.
Qed.

Lemma parse_chunks_rounds (contents : list byte) (fuel : nat) :
  forall log st file st' file',
    rounds zlib_decompress contents log st file ->
    parse_chunks zlib_decompress fuel (riff_size contents) st file = Ok (st', file') ->
    exists log', rounds zlib_decompress contents log' st' file' /\
                 ~ Z.of_nat (pos file') < riff_size contents.
Proof.
  induction fuel as [|fuel IH]; intros log st file st' file' Hr;
    cbn [parse_chunks];
    destruct (Z.ltb_spec (Z.of_nat (pos file)) (riff_size contents)) as [Hlt|Hge];
    try done.
  - intros [= <- <-]. exists log. split; [done | lia].
  - destruct (parse_one_chunk _ st file) as [[st1 file1]|e|] eqn:Hone; try done.
    destruct (parse_one_chunk_ok _ _ _ _ Hone)
      as (id & data & v & self' & Hnext & Hdata & ->).
    apply (IH (log ++ [(id, v)])). by eapply rounds_next.
  - intros [= <- <-]. exists log. split; [done | lia].
Qed.

(** The fuel that [parse_riff_file] gives its loop is enough on every file:
    the call returns a dictionary or raises. *)
Lemma parse_records_fuel {A} (body : M A)
    (set : list A -> ClangIndex -> ClangIndex) (self : ClangIndex)
    (data : list byte) :
  reads 1 body -> parse_records body set self data <> OutOfFuel.
Proof.
  intros Hbody. unfold parse_records.
  pose proof (decode_records_ends body data Hbody) as H.
  by destruct (decode_records body data) as [[l s']|e|].
Qed.

Lemma tagged_fuel {A} (tag : A -> chunk_value) (o : outcome (A * ClangIndex)) :
  o <> OutOfFuel -> tagged tag o <> OutOfFuel.
Proof. by destruct o as [[a self']|e|]. Qed.

Lemma parse_data_fuel (self : ClangIndex) (id : str) (data : list byte) :
  parse_data zlib_decompress self id data <> OutOfFuel.
Proof.
  unfold parse_data.
  repeat (case_bool_decide as E; [clear E; apply tagged_fuel | clear E]);
    try done.
  - unfold parse_stri. destruct (zlib_decompress _ _) as [raw|]; [| done].
    by destruct (decode raw).
  - apply parse_records_fuel, reads_read_symbol.
  - apply parse_records_fuel, reads_read_ref.
  - apply parse_records_fuel, reads_read_relation.
  - apply parse_records_fuel, reads_read_source.
  - apply parse_records_fuel, reads_read_command.
Qed.

Lemma parse_chunks_fuel (riff_size : Z) (fuel : nat) :
  forall (st : session) (file : stream),
    (pos file <= length (buf file))%nat ->
    (length (buf file) - pos file < fuel)%nat ->
    parse_chunks zlib_decompress fuel riff_size st file <> OutOfFuel.
Proof.
  induction fuel as [|fuel IH]; intros st file Hpos Hfuel; [lia |].
  cbn [parse_chunks]. destruct (Z.of_nat (pos file) <? riff_size); [| done].
  destruct (parse_one_chunk _ st file) as [[st' file']|e|] eqn:Hone; [| done |].
  - destruct (parse_one_chunk_ok _ _ _ _ Hone)
      as (id & data & v & self' & Hnext & Hdata & ->).
    pose proof (chunk_tags_nonempty _ (parse_data_ok_tag _ _ _ _ Hdata)) as Hid.
    destruct (next_chunk_progress _ _ _ _ Hnext Hid Hpos) as [Hbuf Hpos'].
    apply IH; rewrite Hbuf; lia.
  - exfalso. revert Hone. unfold parse_one_chunk, bind, lift, ret.
    pose proof (next_chunk_eq file) as Hn. cbv zeta in Hn. rewrite Hn.
    destruct (decode (take 4 (rest file))) as [id|]; [| done]. cbn [fst snd].
    pose proof (parse_data_fuel (fst st) id
                  (take (Z.to_nat (int_from_bytes (take 4 (drop 4 (rest file)))))
                     (drop 8 (rest file)))) as Hd.
    by destruct (parse_data _ _ _ _) as [[v self']|e|].
Qed.

Lemma parse_riff_file_fuel (contents : list byte) :
  parse_riff_file zlib_decompress contents <> OutOfFuel.
Proof.
  unfold parse_riff_file, bind. rewrite read_header_eq.
  destruct (advance_pos 12 (BytesIO contents)) as (Hbuf & Hpos & _);
    [cbn [pos buf BytesIO]; lia |].
  pose proof (parse_chunks_fuel (riff_size contents) (S (length contents))
                (new_ClangIndex, ∅) (advance 12 (BytesIO contents))) as H.
  rewrite Hbuf in H. cbn [buf BytesIO] in *.
  specialize (H Hpos ltac:(lia)).
  by destruct (parse_chunks _ _ _ _ _) as [[[self ci] file]|e|].
Qed.

Lemma parse_data_symb (self : ClangIndex) (data : list byte) :
  parse_data zlib_decompress self (Str "symb") data
  = tagged VSymbols (parse_symb self data).
Proof. reflexivity. Qed.


Lemma records_reach_inv {A} (body : M A) (data : list byte)
    (acc : list A) (s : stream) :
  reads 1 body ->
  records_reach body data acc s ->
  buf s = data /\ (pos s <= length data)%nat /\
  exists fuel, (length data - pos s < fuel)%nat /\
               decode_records body data = while_records fuel data body acc s.
Proof.
  intros Hbody. induction 1 as [|acc s r s' _ IH Hlt Hstep].
  - split; [done |]. split; [simpl; lia |].
    exists (S (length data)). split; [simpl; lia | done].
  - destruct IH as (Hbuf & Hpos & fuel & Hfuel & Hrun).
    specialize (Hbody s). rewrite Hstep in Hbody.
    destruct Hbody as (n & Hn & ->). subst data.
    destruct (advance_pos n s Hpos) as (H1 & H2 & H3).
    specialize (H3 Hn Hlt). split; [done |]. split; [done |].
    destruct fuel as [|fuel]; [lia |]. exists fuel. split; [lia |].
    rewrite Hrun. cbn [while_records].
    apply Nat.ltb_lt in Hlt. by rewrite Hlt, Hstep.
Qed.

Lemma records_reach_raise {A} (body : M A) (data : list byte)
    (acc : list A) (s : stream) (e : exn) :
  reads 1 body ->
  records_reach body data acc s ->
  (pos s < length data)%nat ->
  body s = Raise e ->
  decode_records body data = Raise e.
Proof.
  intros Hbody Hr Hlt He.
  destruct (records_reach_inv _ _ _ _ Hbody Hr) as (_ & _ & fuel & Hfuel & ->).
  destruct fuel as [|fuel]; [lia |]. cbn [while_records].
  apply Nat.ltb_lt in Hlt. by rewrite Hlt, He.
Qed.

Lemma read_symbol_invalid_enum (self : ClangIndex) (s : stream) :
  SymbolKind_of_int (peek 8 s) = None \/ SymbolLanguage_of_int (peek 9 s) = None ->
  exists v, (v = peek 8 s \/ v = peek 9 s) /\
            read_symbol self s = Raise (ValueError_invalid_enum v).
Proof.
  intros H. unfold read_symbol, bind at 1 2 3 4 5.
  rewrite consume_id_eq, consume8_eq, peek_advance.
  change (8 + 0)%nat with 8%nat. unfold enum_call at 1.
  destruct (SymbolKind_of_int (peek 8 s)) as [k|] eqn:Hk.
  - destruct H as [H|H]; [done |]. unfold ret at 1.
    rewrite consume8_eq, !peek_advance. change (8 + (1 + 0))%nat with 9%nat.
    unfold enum_call. rewrite H. exists (peek 9 s). split; [by right | done].
  - exists (peek 8 s). split; [by left | done].
Qed.

(** C6.  When the dispatcher is at a [symb] chunk and the loop of
    [parse_symb] is at a symbol whose kind byte (after the 8 id bytes) is
    no [SymbolKind], or whose language byte is no [SymbolLanguage], then
    [parse_symb] raises the [ValueError] of the enumeration, and so does
    [parse_riff_file]: no symbol list, partial or not, is returned. *)
Theorem invalid_enum_fails (contents : list byte)
    (log : list (str * chunk_value)) (st : session) (file : stream)
    (data : list byte) (file' : stream) (acc : list Symbol) (s : stream) :
  rounds zlib_decompress contents log st file ->
  Z.of_nat (pos file) < riff_size contents ->
  next_chunk file = Ok ((Str "symb", data), file') ->
  records_reach (read_symbol (fst st)) data acc s ->
  (pos s < length data)%nat ->
  SymbolKind_of_int (peek 8 s) = None \/ SymbolLanguage_of_int (peek 9 s) = None ->
  exists v, (v = peek 8 s \/ v = peek 9 s) /\
            parse_symb (fst st) data = Raise (ValueError_invalid_enum v) /\
            parse_riff_file zlib_decompress contents
            = Raise (ValueError_invalid_enum v) /\
            (forall cindex, parse_riff_file zlib_decompress contents <> Ok cindex).
Proof.
  intros Hr Hcond Hnext Hreach Hlt Hbad.
  destruct (read_symbol_invalid_enum (fst st) s Hbad) as (v & Hv & He).
  exists v. split; [done |].
  assert (Hsymb : parse_symb (fst st) data = Raise (ValueError_invalid_enum v)).
  { unfold parse_symb, parse_records.
    by rewrite (records_reach_raise _ _ _ _ _ (reads_read_symbol _) Hreach Hlt He). }
  assert (H : parse_riff_file zlib_decompress contents
              = Raise (ValueError_invalid_enum v)).
  { apply (rounds_raise _ _ _ _ _ Hr Hcond).
    rewrite (parse_one_chunk_round _ _ _ _ _ Hnext), parse_data_symb.
    by rewrite Hsymb. }
  split; [done |]. split; [done |]. intros cindex. by rewrite H.
Qed.

Lemma last_under_app (id : str) (v : chunk_value)
    (log1 log2 : list (str * chunk_value)) :
  id ∉ map fst log2 ->
  last_under id (log1 ++ (id, v) :: log2) = Some v.
Proof.
  intros Hid. unfold last_under.
  rewrite filter_app, filter_cons. cbn [fst]. rewrite decide_True by done.
  assert (E : filter (fun p : str * chunk_value => p.1 = id) log2 = []).
  { induction log2 as [|p log2 IH]; [done |]. simpl in Hid.
    apply not_elem_of_cons in Hid as [Hp Hid].
    rewrite filter_cons, decide_False by done. by apply IH. }
  rewrite E. by rewrite last_snoc.
Qed.

End Dispatch.

(** ** The dispatcher on concrete files *)

(** A container with one [meta] chunk holding 01 00 00 00 decodes to
    version 1 and nothing else. *)
Example meta_only_file_decodes :
  parse_riff_file inflate_stored
    [x52; x49; x46; x46; x10; x00; x00; x00; x43; x64; x49; x78;
     x6d; x65; x74; x61; x04; x00; x00; x00; x01; x00; x00; x00]
  = Ok {[ Str "meta" := VVersion 1 ]}.
Proof. vm_compute. reflexivity. Qed.

(** The bound of the loop is the size field itself, compared with the
    position in the file: a chunk that starts at or after it is not read. *)
Example chunk_past_size_not_read :
  parse_riff_file inflate_stored
    [x52; x49; x46; x46; x0c; x00; x00; x00; x43; x64; x49; x78;
     x78; x78; x78; x78; x00; x00; x00; x00]
  = Ok ∅.
Proof. vm_compute. reflexivity. Qed.

Lemma invalid_enum_fails_witness :
  exists v,
    (v = 99 \/ v = 0) /\
    parse_symb new_ClangIndex [x01; x02; x03; x04; x05; x06; x07; x08; x63; x00]
    = Raise (ValueError_invalid_enum v) /\
    parse_riff_file inflate_stored bad_kind_file
    = Raise (ValueError_invalid_enum v) /\
    (forall cindex, parse_riff_file inflate_stored bad_kind_file <> Ok cindex).
Proof.
  apply (invalid_enum_fails inflate_stored bad_kind_file [] _ _
           [x01; x02; x03; x04; x05; x06; x07; x08; x63; x00]
           (Stream bad_kind_file 30) []
           (BytesIO [x01; x02; x03; x04; x05; x06; x07; x08; x63; x00])
           (rounds_start _ _)).
  - reflexivity.
  - reflexivity.
  - apply reach_start.
  - simpl. lia.
  - left. reflexivity.
Defined.


(** * Further properties *)

(** ** Readers on the bytes that encoders write *)

Lemma emits_ret {A} (a : A) : emits (ret a) [] a.
Proof. intros s tl _. unfold ret. by rewrite advance_0. Qed.

Lemma emits_bind {A B} (m : M A) (f : A -> M B) (bs1 bs2 : list byte)
    (a : A) (b : B) :
  emits m bs1 a -> emits (f a) bs2 b -> emits (bind m f) (bs1 ++ bs2) b.
Proof.
  intros Hm Hf s tl Hrest. unfold bind.
  rewrite (Hm s (bs2 ++ tl)) by (by rewrite Hrest, <- app_assoc).
  rewrite (Hf (advance (length bs1) s) tl).
  - by rewrite advance_advance, length_app.
  - rewrite rest_advance, Hrest, <- app_assoc. by rewrite drop_app_length.
Qed.

Lemma emits_read (bs : list byte) : emits (read (length bs)) bs bs.
Proof.
  intros s tl Hrest. rewrite read_eq, Hrest. by rewrite take_app_length.
Qed.

Lemma emits_consume8 (b : byte) : emits consume8 [b] (byte_val b).
Proof.
  intros s tl Hrest. rewrite consume8_eq. unfold peek. by rewrite Hrest.
Qed.

Lemma emits_consume_id (bs : list byte) :
  length bs = 8%nat -> emits consume_id bs (hex bs).
Proof.
  intros Hlen s tl Hrest. rewrite consume_id_eq, Hrest, <- Hlen.
  by rewrite take_app_length.
Qed.

Lemma emits_consume_var (v : Z) : var_ok v -> emits consume_var (encode_var v) v.
Proof.
  intros Hv s tl Hrest. rewrite consume_var_eq. unfold seen.
  rewrite Hrest, map_app, <- app_assoc.
  destruct (encode_var_5 v) as (k & Hk & Hvk & E); [done |]. rewrite E.
  destruct (encode_var_fuel_decodes k v (map byte_val tl ++ [0]) 5 0)
    as [H1 H2]; [done | done | done |].
  by rewrite H1, H2, Z.shiftl_0_r, length_map.
Qed.

Lemma emits_enum_call {E} (of_int : Z -> option E) (v : Z) (e : E) :
  of_int v = Some e -> emits (enum_call of_int v) [] e.
Proof. intros H. unfold enum_call. rewrite H. apply emits_ret. Qed.

Lemma entry_lookup (table : list str) (i : Z) :
  index_ok table i -> table !! Z.to_nat i = Some (entry table i).
Proof.
  intros [Hi Hlt]. unfold entry.
  destruct (lookup_lt_is_Some_2 table (Z.to_nat i)) as [x ->]; [lia | done].
Qed.

Lemma emits_consume_string (self : ClangIndex) (table : list str) (i : Z) :
  string_table self = Some table -> index_ok table i ->
  emits (consume_string self) (encode_var i) (entry table i).
Proof.
  intros Ht Hi s tl Hrest.
  pose proof (emits_consume_var i (proj1 Hi) s tl Hrest) as Hv.
  rewrite (consume_string_eq self table s i _ Ht Hv).
  by rewrite entry_lookup.
Qed.

Lemma emits_for_range {A B} (body : M B) (enc : A -> list byte)
    (dec : A -> B) (l : list A) :
  Forall (fun x => emits body (enc x) (dec x)) l ->
  emits (for_range (length l) body) (concat (map enc l)) (map dec l).
Proof.
  induction 1 as [|x l Hx _ IH]; cbn [length map concat for_range].
  - apply emits_ret.
  - apply (emits_bind _ _ _ _ (dec x)); [done |].
    rewrite <- (app_nil_r (concat (map enc l))).
    apply (emits_bind _ _ _ _ (map dec l)); [done | apply emits_ret].
Qed.

Lemma emits_counted {A B} (body : M B) (enc : A -> list byte)
    (dec : A -> B) (l : list A) :
  Wire.count_ok l ->
  Forall (fun x => emits body (enc x) (dec x)) l ->
  emits (n <- consume_var ;; for_range (Z.to_nat n) body)
    (Wire.counted enc l) (map dec l).
Proof.
  intros Hc Hl. unfold Wire.counted.
  apply (emits_bind _ _ _ _ (Z.of_nat (length l))).
  - by apply emits_consume_var.
  - rewrite Nat2Z.id. by apply emits_for_range.
Qed.

Lemma emits_bind_nil {A B} (m : M A) (f : A -> M B) (bs : list byte)
    (a : A) (b : B) :
  emits m [] a -> emits (f a) bs b -> emits (bind m f) bs b.
Proof. apply (emits_bind m f [] bs). Qed.

Lemma emits_bind_last {A B} (m : M A) (f : A -> M B) (bs : list byte)
    (a : A) (b : B) :
  emits m bs a -> emits (f a) [] b -> emits (bind m f) bs b.
Proof.
  intros Hm Hf. rewrite <- (app_nil_r bs). by apply (emits_bind _ _ _ _ a).
Qed.

Lemma SymbolKind_byte (k : SymbolKind) :
  SymbolKind_of_int (byte_val (byte_of_int (SymbolKind_value k))) = Some k.
Proof. by destruct k. Qed.

Lemma SymbolLanguage_byte (l : SymbolLanguage) :
  SymbolLanguage_of_int (byte_val (byte_of_int (SymbolLanguage_value l))) = Some l.
Proof. by destruct l. Qed.

Ltac emits_leaf :=
  first
    [ by apply emits_consume_var
    | by eapply emits_consume_string
    | by apply emits_consume_id
    | apply emits_consume8
    | apply emits_read
    | rewrite Nat2Z.id; apply emits_for_range ].

Ltac emits_step :=
  lazymatch goal with
  | |- emits (ret _) _ _ => apply emits_ret
  | |- emits (bind (enum_call _ _) _) _ _ =>
      eapply emits_bind_nil;
      [ apply emits_enum_call;
        first [apply SymbolKind_byte | apply SymbolLanguage_byte]
      | cbv beta ]
  | |- emits (bind _ _) (_ ++ _) _ => eapply emits_bind; [emits_leaf | cbv beta]
  | |- emits (bind _ _) _ _ => eapply emits_bind_last; [emits_leaf | cbv beta]
  end.

Section Readers.

Variables (self : ClangIndex) (table : list str).
Hypothesis Htable : string_table self = Some table.

Lemma emits_index (i : Z) :
  index_ok table i -> emits (consume_string self) (encode_var i) (entry table i).
Proof. by apply emits_consume_string. Qed.

Lemma emits_read_location (l : Wire.location) :
  Wire.location_ok table l ->
  emits (read_location self) (Wire.location_bytes l) (Wire.to_Location table l).
Proof.
  intros (H1 & H2 & H3 & H4 & H5).
  unfold read_location, Wire.location_bytes. repeat emits_step.
Qed.

Lemma emits_read_include_header (h : Wire.include_header) :
  Wire.include_ok table h ->
  emits (read_include_header self) (Wire.include_bytes h)
    (Wire.to_IncludeHeader table h).
Proof.
  intros (H1 & H2).
  unfold read_include_header, Wire.include_bytes. repeat emits_step.
Qed.

Lemma emits_read_command (c : Wire.command) :
  Wire.command_ok table c ->
  emits (read_command self) (Wire.command_bytes c) (Wire.to_Command table c).
Proof.
  intros (H1 & H2 & H3).
  unfold read_command, Wire.command_bytes, Wire.counted. repeat emits_step.
  eapply Forall_impl; [exact H3 |]. intros i Hi. by apply emits_index.
Qed.

Lemma emits_read_n (n : nat) (bs : list byte) :
  length bs = n -> emits (read n) bs bs.
Proof. intros <-. apply emits_read. Qed.

Lemma emits_eq {A} (m : M A) (bs : list byte) (a a' : A) :
  emits m bs a -> a = a' -> emits m bs a'.
Proof. by intros H <-. Qed.

Ltac emits_leaf' :=
  first
    [ emits_leaf
    | by apply emits_read_location
    | by apply emits_read_n ].

Ltac emits_step' :=
  lazymatch goal with
  | |- emits (bind _ _) (_ ++ _) _ =>
      first [emits_step | eapply emits_bind; [emits_leaf' | cbv beta]]
  | |- emits (bind _ _) _ _ =>
      first [emits_step | eapply emits_bind_last; [emits_leaf' | cbv beta]]
  | |- _ => emits_step
  end.

Lemma emits_read_symbol (y : Wire.symbol) :
  Wire.symbol_ok table y ->
  emits (read_symbol self) (Wire.symbol_bytes y) (Wire.to_Symbol table y).
Proof.
  intros (H1 & H2 & H3 & H4 & H5 & H6 & H7 & H8 & H9 & H10 & H11 & H12 & H13 & H14).
  unfold read_symbol, Wire.symbol_bytes, Wire.counted. repeat emits_step'.
  eapply Forall_impl; [exact H14 |]. intros h Hh.
  by apply emits_read_include_header.
Qed.

Lemma emits_read_reference (r : Wire.reference) :
  Wire.reference_ok table r ->
  emits (read_reference self) (Wire.reference_bytes r) (Wire.to_Reference table r).
Proof.
  intros (H1 & H2).
  unfold read_reference, Wire.reference_bytes. repeat emits_step'.
Qed.

Lemma emits_read_ref (r : Wire.ref) :
  Wire.ref_ok table r ->
  emits (read_ref self) (Wire.ref_bytes r) (Wire.to_Ref table r).
Proof.
  intros (H1 & H2 & H3).
  unfold read_ref, Wire.ref_bytes, Wire.counted. repeat emits_step'.
  eapply Forall_impl; [exact H3 |]. intros x Hx.
  by apply emits_read_reference.
Qed.

Lemma emits_read_source (x : Wire.source) :
  Wire.source_ok table x ->
  emits (read_source self) (Wire.source_bytes x) (Wire.to_Source table x).
Proof.
  intros (H1 & H2 & H3 & H4).
  eapply emits_eq.
  - unfold read_source, Wire.source_bytes, Wire.counted. repeat emits_step'.
    eapply Forall_impl; [exact H4 |]. intros i Hi. by apply emits_index.
  - unfold Wire.to_Source. f_equal. cbn [int_from_bytes]. lia.
Qed.

End Readers.

Lemma emits_read_relation (r : Wire.relation) :
  emits read_relation (Wire.relation_bytes r) (Wire.to_Relation r).
Proof.
  unfold read_relation, Wire.relation_bytes.
  change [Wire.rel_subject r; Wire.rel_predicate r; Wire.rel_object r]
    with ([Wire.rel_subject r] ++ [Wire.rel_predicate r] ++ [Wire.rel_object r]).
  repeat emits_step.
Qed.

(** ** Record chunks: decoding what was encoded *)

Lemma while_records_emits {W A} (body : M A) (enc : W -> list byte)
    (dec : W -> A) (data : list byte) (ws : list W) :
  Forall (fun w => emits body (enc w) (dec w) /\ enc w <> []) ws ->
  forall (fuel : nat) (acc : list A) (s : stream),
    buf s = data -> (pos s <= length data)%nat ->
    rest s = concat (map enc ws) ->
    (length (rest s) < fuel)%nat ->
    while_records fuel data body acc s
    = Ok (acc ++ map dec ws, Stream data (length data)).
Proof.
  induction 1 as [|w ws [Hw Hne] _ IH]; intros fuel acc s Hbuf Hpos Hrest Hfuel;
    (destruct fuel as [|fuel]; [lia |]); cbn [while_records map concat] in *.
  - assert (Hlen : length (rest s) = 0%nat) by (by rewrite Hrest).
    unfold rest in Hlen. rewrite length_drop, Hbuf in Hlen.
    assert ((pos s <? length data)%nat = false) as -> by (apply Nat.ltb_ge; lia).
    rewrite app_nil_r. destruct s as [b p]. simpl in *. subst b.
    do 3 f_equal. lia.
  - assert (Hlen : (1 <= length (rest s))%nat).
    { rewrite Hrest, length_app. destruct (enc w); [done | simpl; lia]. }
    pose proof Hlen as Hlen'. unfold rest in Hlen'.
    rewrite length_drop, Hbuf in Hlen'.
    assert ((pos s <? length data)%nat = true) as -> by (apply Nat.ltb_lt; lia).
    rewrite (Hw s _ Hrest). subst data.
    destruct (advance_pos (length (enc w)) s Hpos) as (H1 & H2 & _).
    rewrite IH; [by rewrite <- app_assoc | done | done | |].
    + by rewrite rest_advance, Hrest, drop_app_length.
    + rewrite rest_advance, length_drop, Hrest, length_app in *.
      assert (1 <= length (enc w))%nat by (destruct (enc w); [done | simpl; lia]).
      lia.
Qed.

Lemma parse_records_emits {W A} (body : M A)
    (set : list A -> ClangIndex -> ClangIndex) (self : ClangIndex)
    (enc : W -> list byte) (dec : W -> A) (ws : list W) :
  Forall (fun w => emits body (enc w) (dec w) /\ enc w <> []) ws ->
  parse_records body set self (concat (map enc ws))
  = Ok (map dec ws, set (map dec ws) self).
Proof.
  intros H. unfold parse_records, decode_records.
  rewrite (while_records_emits body enc dec _ ws H); try done.
  - simpl. lia.
  - rewrite rest_BytesIO. lia.
Qed.

Lemma encode_var_nonempty (v : Z) (tl : list byte) : encode_var v ++ tl <> [].
Proof.
  unfold encode_var. rewrite encode_var_fuel_S. by destruct (v <? 128).
Qed.

Lemma id_nonempty (bs tl : list byte) : length bs = 8%nat -> bs ++ tl <> [].
Proof. by destruct bs. Qed.

(** X12.  Round trip, [rela].  The chunk written for a list of relations, three
    bytes each, is decoded to that list, whatever the state of the object. *)
Theorem parse_rela_roundtrip (self : ClangIndex) (rs : list Wire.relation) :
  parse_rela self (concat (map Wire.relation_bytes rs))
  = Ok (map Wire.to_Relation rs, set_relations (map Wire.to_Relation rs) self).
Proof.
  apply parse_records_emits. apply Forall_forall. intros r _.
  split; [apply emits_read_relation | done].
Qed.

Section ChunkRoundTrips.

Variables (self : ClangIndex) (table : list str).
Hypothesis Htable : string_table self = Some table.

(** X13.  Round trip, [cmdl].  With a string table in place, the chunk written
    for command entries whose indices are within the table is decoded to
    those entries, each index replaced by its string. *)
Theorem parse_cmdl_roundtrip (cs : list Wire.command) :
  Forall (Wire.command_ok table) cs ->
  parse_cmdl self (concat (map Wire.command_bytes cs))
  = Ok (map (Wire.to_Command table) cs,
        set_commands (map (Wire.to_Command table) cs) self).
Proof.
  intros H. apply parse_records_emits.
  eapply Forall_impl; [exact H |]. intros c Hc.
  split; [by apply emits_read_command | apply encode_var_nonempty].
Qed.

(** X14.  Round trip, [srcs].  With a string table in place, the chunk
    written for source records (flag byte, URI index, 8 digest bytes,
    counted include indices) is decoded to those records, strings
    resolved. *)
Theorem parse_srcs_roundtrip (xs : list Wire.source) :
  Forall (Wire.source_ok table) xs ->
  parse_srcs self (concat (map Wire.source_bytes xs))
  = Ok (map (Wire.to_Source table) xs,
        set_sources (map (Wire.to_Source table) xs) self).
Proof.
  intros H. apply parse_records_emits.
  eapply Forall_impl; [exact H |]. intros x Hx.
  split; [by apply emits_read_source | done].
Qed.

(** X15.  Round trip, [refs].  With a string table in place, the chunk
    written for reference entries (8-byte id, counted references of kind
    byte, location and 8-byte container id) is decoded to those entries,
    ids as hexadecimal text. *)
Theorem parse_refs_roundtrip (rs : list Wire.ref) :
  Forall (Wire.ref_ok table) rs ->
  parse_refs self (concat (map Wire.ref_bytes rs))
  = Ok (map (Wire.to_Ref table) rs, set_refs (map (Wire.to_Ref table) rs) self).
Proof.
  intros H. apply parse_records_emits.
  eapply Forall_impl; [exact H |]. intros r Hr.
  split; [by apply emits_read_ref |]. apply id_nonempty, Hr.
Qed.

(** X16.  Round trip, [symb].  With a string table in place, the chunk
    written for symbols, field by field in the order [read_symbol] reads
    them, is decoded to those symbols, strings resolved and the include
    headers' varints split into count and directives. *)
Theorem parse_symb_roundtrip (ys : list Wire.symbol) :
  Forall (Wire.symbol_ok table) ys ->
  parse_symb self (concat (map Wire.symbol_bytes ys))
  = Ok (map (Wire.to_Symbol table) ys,
        set_symbols (map (Wire.to_Symbol table) ys) self).
Proof.
  intros H. apply parse_records_emits.
  eapply Forall_impl; [exact H |]. intros y Hy.
  split; [by apply emits_read_symbol |]. apply id_nonempty, Hy.
Qed.

End ChunkRoundTrips.

(** ** [parse_varint], the decoder without a cap *)

Lemma bit128 (b : byte) :
  (Z.land (byte_val b) 128 =? 0) = negb (Z.testbit (byte_val b) 7).
Proof. exact (more_bit b). Qed.

Lemma var_value_app (l1 l2 : list Z) :
  forall shift,
    var_value shift (l1 ++ l2)
    = Z.lor (var_value shift l1) (var_value (shift + 7 * Z.of_nat (length l1)) l2).
Proof.
  induction l1 as [|b l1 IH]; intros shift; cbn [app var_value length].
  - rewrite Z.lor_0_l. f_equal. lia.
  - rewrite IH, Z.lor_assoc. do 2 f_equal. lia.
Qed.

Lemma parse_varint_loop_cont (pre : list byte) :
  forall (tl : list byte) (result shift : Z),
    Forall (fun b => Z.testbit (byte_val b) 7 = true) pre ->
    parse_varint_loop (pre ++ tl) result shift
    = parse_varint_loop tl
        (Z.lor result (var_value shift (map byte_val pre)))
        (shift + 7 * Z.of_nat (length pre)).
Proof.
  induction pre as [|b pre IH]; intros tl result shift Hpre;
    cbn [app map var_value length parse_varint_loop].
  - rewrite Z.lor_0_r. f_equal. lia.
  - inversion Hpre as [|? ? Hb Hpre']; subst.
    rewrite bit128, Hb. cbn [negb]. rewrite IH by done.
    rewrite Z.lor_assoc. f_equal. lia.
Qed.

Lemma var_bytes_terminated (pre : list byte) (b : byte) :
  forall (n : nat) (tl : list Z),
    Forall (fun b => Z.testbit (byte_val b) 7 = true) pre ->
    Z.testbit (byte_val b) 7 = false ->
    (length pre < n)%nat ->
    var_bytes n (map byte_val pre ++ byte_val b :: tl)
    = map byte_val (pre ++ [b]).
Proof.
  induction pre as [|b0 pre IH]; intros n tl Hpre Hb Hn;
    (destruct n as [|n]; [simpl in Hn; lia |]); cbn [map app].
  - by rewrite var_bytes_S, Hb.
  - inversion Hpre as [|? ? Hb0 Hpre']; subst.
    rewrite var_bytes_S, Hb0. f_equal. apply IH; [done | done |].
    simpl in Hn. lia.
Qed.

Lemma parse_varint_on_terminated (pre : list byte) (b : byte) (tl : list byte) :
  Forall (fun b => Z.testbit (byte_val b) 7 = true) pre ->
  Z.testbit (byte_val b) 7 = false ->
  parse_varint (pre ++ b :: tl)
  = (var_value 0 (map byte_val (pre ++ [b])), Z.of_nat (length pre) + 1) /\
  ((length pre <= 4)%nat ->
   consume_var (BytesIO (pre ++ b :: tl))
   = Ok (var_value 0 (map byte_val (pre ++ [b])),
         Stream (pre ++ b :: tl) (S (length pre)))).
Proof.
  intros Hpre Hb. split.
  - unfold parse_varint. rewrite parse_varint_loop_cont by done.
    cbn [parse_varint_loop]. rewrite bit128, Hb. cbn [negb fst snd].
    rewrite map_app, var_value_app, length_map, !Z.lor_0_l.
    cbn [map var_value]. rewrite Z.lor_0_r. f_equal.
    replace (0 + 7 * Z.of_nat (length pre)) with (Z.of_nat (length pre) * 7) by lia.
    by rewrite Z.div_mul.
  - intros Hlen. rewrite consume_var_eq.
    unfold seen. rewrite rest_BytesIO, map_app, <- app_assoc. cbn [map app].
    rewrite var_bytes_terminated by (done || lia).
    rewrite length_map, length_app. cbn [length].
    rewrite advance_BytesIO by (rewrite length_app; simpl; lia).
    do 3 f_equal. lia.
Qed.

(** X1.  [parse_varint] on a value that ends: with [pre] the bytes that carry a
    continuation bit and [b] the first one that does not, it returns the
    groups of [pre ++ [b]], 7 bits each from the low end, and the number of
    bytes of the value.  When the value has at most five bytes,
    [consume_var] returns the same number and stops at the same place. *)
Theorem parse_varint_terminated (pre : list byte) (b : byte) (tl : list byte) :
  Forall (fun b => Z.testbit (byte_val b) 7 = true) pre ->
  Z.testbit (byte_val b) 7 = false ->
  parse_varint (pre ++ b :: tl)
  = (var_value 0 (map byte_val (pre ++ [b])), Z.of_nat (length pre) + 1) /\
  ((length pre <= 4)%nat ->
   consume_var (BytesIO (pre ++ b :: tl))
   = Ok (var_value 0 (map byte_val (pre ++ [b])),
         Stream (pre ++ b :: tl) (S (length pre)))).
Proof. apply parse_varint_on_terminated. Qed.

Lemma parse_varint_terminated_witness :
  parse_varint [xac; x02; xff]
  = (var_value 0 (map byte_val [xac; x02]), 2) /\
  consume_var (BytesIO [xac; x02; xff])
  = Ok (var_value 0 (map byte_val [xac; x02]), Stream [xac; x02; xff] 2).
Proof.
  destruct (parse_varint_terminated [xac] x02 [xff]) as [H1 H2];
    [by repeat constructor | reflexivity |].
  split; [exact H1 | apply H2; simpl; lia].
Defined.

(** X2.  [parse_varint] on bytes that all carry a continuation bit, the empty
    sequence included: the loop runs off the end, and the count returned
    is one more than the number of bytes there were. *)
Theorem parse_varint_unterminated (data : list byte) :
  Forall (fun b => Z.testbit (byte_val b) 7 = true) data ->
  parse_varint data
  = (var_value 0 (map byte_val data), Z.of_nat (length data) + 1).
Proof.
  intros H. unfold parse_varint.
  pose proof (parse_varint_loop_cont data [] 0 0 H) as E.
  rewrite app_nil_r in E. rewrite E.
  cbn [parse_varint_loop fst snd]. rewrite Z.lor_0_l. f_equal.
  replace (0 + 7 * Z.of_nat (length data)) with (Z.of_nat (length data) * 7) by lia.
  by rewrite Z.div_mul.
Qed.

Lemma parse_varint_unterminated_witness :
  parse_varint [] = (0, 1) /\ parse_varint [x81; x80] = (1, 3).
Proof.
  split.
  - apply (parse_varint_unterminated []). constructor.
  - apply (parse_varint_unterminated [x81; x80]). by repeat constructor.
Defined.

Lemma encode_var_fuel_shape (k : nat) :
  forall v, 0 <= v < 2 ^ (7 * Z.of_nat (S k)) ->
    exists pre b,
      encode_var_fuel (S k) v = pre ++ [b] /\
      Forall (fun b => Z.testbit (byte_val b) 7 = true) pre /\
      Z.testbit (byte_val b) 7 = false.
Proof.
  induction k as [|k IH]; intros v Hv; rewrite encode_var_fuel_S.
  - assert (Hlt : v < 128) by (change (2 ^ (7 * Z.of_nat 1)) with 128 in Hv; lia).
    apply Z.ltb_lt in Hlt as Hb. rewrite Hb.
    exists [], (byte_of_int v). split; [done |]. split; [constructor |].
    rewrite byte_of_int_val by lia. apply small_testbit7. lia.
  - destruct (Z.ltb_spec v 128) as [Hlt|Hge].
    + exists [], (byte_of_int v). split; [done |]. split; [constructor |].
      rewrite byte_of_int_val by lia. apply small_testbit7. lia.
    + destruct (IH (Z.shiftr v 7)) as (pre & b & E & Hpre & Hb).
      { rewrite Z.shiftr_div_pow2 by lia. split.
        - apply Z.div_pos; lia.
        - apply Z.div_lt_upper_bound; [lia |].
          rewrite <- Z.pow_add_r by lia.
          replace (7 + 7 * Z.of_nat (S k)) with (7 * Z.of_nat (S (S k))) by lia.
          lia. }
      exists (byte_of_int (Z.lor (Z.land v 127) 128) :: pre), b.
      rewrite E. split; [done |]. split; [| done].
      constructor; [| done].
      destruct (cont_byte v) as (Hr & Hbit & _). by rewrite byte_of_int_val.
Qed.

Lemma encode_var_any (v : Z) :
  0 <= v ->
  exists k, 0 <= v < 2 ^ (7 * Z.of_nat (S k)) /\
            encode_var v = encode_var_fuel (S k) v.
Proof.
  intros Hv. exists (Z.to_nat (Z.log2 v)). split; [| done].
  split; [done |]. pose proof (Z.log2_nonneg v).
  apply Z.lt_le_trans with (2 ^ Z.of_nat (S (Z.to_nat (Z.log2 v)))).
  - rewrite Nat2Z.inj_succ, Z2Nat.id by done.
    destruct (Z.eq_dec v 0) as [->|]; [done |]. apply Z.log2_spec. lia.
  - apply Z.pow_le_mono_r; lia.
Qed.

(** X3.  Round trip, [parse_varint]: every natural number, of any size, is read
    back from its standard encoding, with the length of the encoding as
    the count, whatever follows. *)
Theorem parse_varint_roundtrip (v : Z) (tl : list byte) :
  0 <= v ->
  parse_varint (encode_var v ++ tl) = (v, Z.of_nat (length (encode_var v))).
Proof.
  intros Hv. destruct (encode_var_any v Hv) as (k & Hk & E).
  destruct (encode_var_fuel_shape k v Hk) as (pre & b & Es & Hpre & Hb).
  destruct (encode_var_fuel_decodes k v [] (S k) 0 Hk) as [_ H2]; [lia | lia |].
  rewrite E, Es, <- app_assoc. cbn [app].
  rewrite (proj1 (parse_varint_on_terminated pre b tl Hpre Hb)).
  rewrite <- Es, H2, Z.shiftl_0_r, Es, length_app. cbn [length]. f_equal. lia.
Qed.

Lemma parse_varint_roundtrip_witness :
  parse_varint (encode_var (2 ^ 40) ++ [x07])
  = (2 ^ 40, Z.of_nat (length (encode_var (2 ^ 40)))).
Proof. apply parse_varint_roundtrip. lia. Defined.

(** ** [consume_var] on values that need more than five bytes *)

Lemma low_groups (v n : Z) :
  0 <= n ->
  Z.lor (Z.land v 127) (Z.shiftl (Z.shiftr v 7 mod 2 ^ n) 7) = v mod 2 ^ (n + 7).
Proof.
  intros Hn. apply Z.bits_inj'. intros i Hi.
  rewrite Z.lor_spec, land_127_testbit by lia.
  destruct (Z.ltb_spec i 7).
  - rewrite Z.shiftl_spec_low, Z.mod_pow2_bits_low by lia.
    by rewrite andb_true_r, orb_false_r.
  - rewrite Z.shiftl_spec, andb_false_r by lia. cbn [orb].
    destruct (Z.lt_ge_cases i (n + 7)).
    + rewrite !Z.mod_pow2_bits_low, Z.shiftr_spec by lia. f_equal. lia.
    + by rewrite !Z.mod_pow2_bits_high by lia.
Qed.

Lemma encode_var_fuel_prefix (n : nat) :
  forall (fuel : nat) (v : Z) (tl : list Z) (shift : Z),
    0 <= shift -> 2 ^ (7 * Z.of_nat n) <= v -> (n < fuel)%nat ->
    (n < length (encode_var_fuel fuel v))%nat /\
    exists g,
      var_bytes n (map byte_val (encode_var_fuel fuel v) ++ tl) = g /\
      length g = n /\
      var_value shift g = Z.shiftl (v mod 2 ^ (7 * Z.of_nat n)) shift.
Proof.
  induction n as [|n IH]; intros fuel v tl shift Hs Hv Hfuel;
    (destruct fuel as [|fuel]; [lia |]); rewrite encode_var_fuel_S.
  - split; [destruct (v <? 128); simpl; lia |].
    exists (@nil Z). split; [reflexivity |]. split; [reflexivity |].
    change (2 ^ (7 * Z.of_nat 0)) with 1.
    by rewrite Z.mod_1_r, Z.shiftl_0_l.
  - assert (H128 : 128 <= v).
    { eapply Z.le_trans; [| exact Hv]. change 128 with (2 ^ 7).
      apply Z.pow_le_mono_r; lia. }
    apply Z.ltb_ge in H128 as Hb. rewrite Hb.
    assert (Hv' : 2 ^ (7 * Z.of_nat n) <= Z.shiftr v 7).
    { rewrite Z.shiftr_div_pow2 by lia. apply Z.div_le_lower_bound; [lia |].
      rewrite <- Z.pow_add_r by lia.
      replace (7 + 7 * Z.of_nat n) with (7 * Z.of_nat (S n)) by lia. done. }
    destruct (IH fuel (Z.shiftr v 7) tl (shift + 7)) as (Hlen & g & Hg & Hglen & Hval);
      [lia | done | lia |].
    split; [simpl; lia |].
    destruct (cont_byte v) as (Hr & Hbit & Hlow).
    exists (Z.lor (Z.land v 127) 128 :: g). cbn [map app].
    rewrite byte_of_int_val, var_bytes_S, Hbit, Hg by done.
    split; [done |]. split; [simpl; lia |].
    cbn [var_value]. rewrite Hval, Hlow.
    rewrite (Z.add_comm shift 7), <- (Z.shiftl_shiftl _ 7 shift) by lia.
    rewrite <- Z.shiftl_lor, low_groups by lia.
    by replace (7 * Z.of_nat n + 7) with (7 * Z.of_nat (S n)) by lia.
Qed.

(** X4.  A value of 2^35 or more, in the standard encoding, is cut by
    [consume_var]: the result is the value modulo 2^35, and the cursor is
    left after the fifth byte, inside the encoding. *)
Theorem consume_var_truncates (v : Z) (tl : list byte) :
  2 ^ 35 <= v ->
  consume_var (BytesIO (encode_var v ++ tl))
  = Ok (v mod 2 ^ 35, Stream (encode_var v ++ tl) 5) /\
  (5 < length (encode_var v))%nat.
Proof.
  intros Hv. rewrite consume_var_eq, seen_BytesIO. unfold encode_var.
  assert (Hlog : 35 <= Z.log2 v).
  { apply Z.log2_le_pow2; lia. }
  destruct (encode_var_fuel_prefix 5 (S (Z.to_nat (Z.log2 v))) v
              (map byte_val tl ++ [0]) 0) as (Hlen & g & Hg & Hglen & Hval);
    [lia | done | lia |].
  rewrite Hg, Hglen, Hval, Z.shiftl_0_r.
  rewrite advance_BytesIO by (rewrite length_app; lia).
  split; [done | lia].
Qed.

Lemma consume_var_truncates_witness :
  consume_var (BytesIO (encode_var (2 ^ 35 + 3) ++ []))
  = Ok ((2 ^ 35 + 3) mod 2 ^ 35, Stream (encode_var (2 ^ 35 + 3) ++ []) 5) /\
  (5 < length (encode_var (2 ^ 35 + 3)))%nat.
Proof. apply consume_var_truncates. lia. Defined.

(** ** Little-endian integers: [parse_meta] and the size fields *)

Lemma byte_of_int_byte_val (b : byte) : byte_of_int (byte_val b) = b.
Proof. by destruct b. Qed.

Lemma int_from_bytes_bound (bs : list byte) :
  0 <= int_from_bytes bs < 256 ^ Z.of_nat (length bs).
Proof.
  induction bs as [|b bs IH]; cbn [int_from_bytes length]; [done |].
  pose proof (byte_val_range b). rewrite Nat2Z.inj_succ, Z.pow_succ_r by lia. lia.
Qed.

Lemma int_from_to_bytes (n : nat) :
  forall v, 0 <= v < 256 ^ Z.of_nat n -> int_from_bytes (int_to_bytes n v) = v.
Proof.
  induction n as [|n IH]; intros v Hv; cbn [int_to_bytes int_from_bytes].
  - change (256 ^ Z.of_nat 0) with 1 in Hv. lia.
  - rewrite Nat2Z.inj_succ, Z.pow_succ_r in Hv by lia.
    rewrite byte_of_int_val by (apply Z.mod_pos_bound; lia).
    rewrite IH.
    + pose proof (Z.div_mod v 256). lia.
    + split; [apply Z.div_pos; lia | apply Z.div_lt_upper_bound; lia].
Qed.

Lemma int_to_from_bytes (bs : list byte) :
  int_to_bytes (length bs) (int_from_bytes bs) = bs.
Proof.
  induction bs as [|b bs IH]; cbn [int_to_bytes int_from_bytes length]; [done |].
  pose proof (byte_val_range b). set (r := int_from_bytes bs) in *.
  rewrite <- (Z.mod_unique_pos (byte_val b + 256 * r) 256 r (byte_val b)) by lia.
  rewrite <- (Z.div_unique_pos (byte_val b + 256 * r) 256 r (byte_val b)) by lia.
  by rewrite byte_of_int_byte_val, IH.
Qed.

(** X5.  [parse_meta] reads the whole payload as one little-endian number: it
    returns [v] on the [n]-byte encoding of [v], and on any payload a
    version below 256 to the payload's length that determines the payload
    (so an empty payload gives version 0); it cannot fail. *)
Theorem parse_meta_little_endian (self : ClangIndex) :
  (forall (n : nat) (v : Z),
      0 <= v < 256 ^ Z.of_nat n ->
      parse_meta self (int_to_bytes n v) = Ok (v, set_version v self)) /\
  (forall data : list byte,
      exists v, parse_meta self data = Ok (v, set_version v self) /\
                0 <= v < 256 ^ Z.of_nat (length data) /\
                int_to_bytes (length data) v = data).
Proof.
  split.
  - intros n v Hv. unfold parse_meta. by rewrite int_from_to_bytes.
  - intros data. exists (int_from_bytes data). split; [done |].
    split; [apply int_from_bytes_bound | apply int_to_from_bytes].
Qed.

Lemma parse_meta_little_endian_witness :
  parse_meta new_ClangIndex (int_to_bytes 4 17)
  = Ok (17, set_version 17 new_ClangIndex).
Proof. apply (proj1 (parse_meta_little_endian new_ClangIndex) 4%nat 17). lia. Defined.

(** ** The string table as a null-split *)

Lemma split_nonempty (sep : Z) (s : str) : split sep s <> [].
Proof.
  destruct s as [|c s]; cbn [split]; [done |].
  destruct (c =? sep); [done |]. by destruct (split sep s).
Qed.

Lemma join_split (sep : Z) (s : str) : join sep (split sep s) = s.
Proof.
  induction s as [|c s IH]; cbn [split]; [done |].
  pose proof (split_nonempty sep s) as Hne.
  destruct (Z.eqb_spec c sep) as [->|Hc].
  - destruct (split sep s) as [|p ps]; [done |].
    change (join sep ([] :: p :: ps)) with (sep :: join sep (p :: ps)).
    by rewrite IH.
  - destruct (split sep s) as [|p ps]; [done |].
    rewrite <- IH. by destruct ps.
Qed.

Lemma split_no_sep (sep : Z) (s : str) : Forall (fun p => sep ∉ p) (split sep s).
Proof.
  induction s as [|c s IH]; cbn [split].
  - constructor; [apply not_elem_of_nil | done].
  - destruct (Z.eqb_spec c sep) as [->|Hc].
    + constructor; [apply not_elem_of_nil | done].
    + destruct (split sep s) as [|p ps] eqn:E; [by apply split_nonempty in E |].
      inversion IH as [|? ? Hp Hps]; subst. constructor; [| done].
      apply not_elem_of_cons. split; [congruence | done].
Qed.

Lemma split_length (sep : Z) (s : str) :
  length (split sep s) = S (length (filter (fun c => c = sep) s)).
Proof.
  induction s as [|c s IH]; cbn [split]; [done |].
  rewrite filter_cons. destruct (Z.eqb_spec c sep) as [->|Hc].
  - rewrite decide_True by done. simpl. by rewrite IH.
  - rewrite decide_False by done. rewrite <- IH.
    pose proof (split_nonempty sep s). by destruct (split sep s).
Qed.

Section StringTableShape.

Variable zlib_decompress : list byte -> Z -> option (list byte).

(** X6.  The table that [parse_stri] returns and stores: it is never empty,
    no entry holds a null character, there is one entry more than there
    are null characters in the decompressed text, and joining the entries
    with null characters gives the text back. *)
Theorem string_table_shape (self : ClangIndex) (data : list byte)
    (table : list str) (self' : ClangIndex) :
  parse_stri zlib_decompress self data = Ok (table, self') ->
  exists raw text,
    zlib_decompress (skipn 4 data) (int_from_bytes (firstn 4 data)) = Some raw /\
    decode raw = Some text /\
    string_table self' = Some table /\
    join 0 table = text /\
    (1 <= length table)%nat /\
    length table = S (length (filter (fun c => c = 0) text)) /\
    Forall (fun p => 0 ∉ p) table.
Proof.
  intros H. destruct (parse_stri_ok _ _ _ _ _ H) as (raw & text & Hz & Hd & -> & ->).
  exists raw, text. split; [done |]. split; [done |]. split; [done |].
  split; [apply join_split |]. rewrite split_length.
  split; [lia |]. split; [done | apply split_no_sep].
Qed.

End StringTableShape.

Lemma string_table_shape_witness :
  exists raw text,
    inflate_stored (skipn 4 ([x08; x00; x00; x00] ++ foo_bar_stream))
      (int_from_bytes (firstn 4 ([x08; x00; x00; x00] ++ foo_bar_stream)))
    = Some raw /\
    decode raw = Some text /\
    string_table (set_string_table [Str "foo"; Str "bar"; []] new_ClangIndex)
    = Some [Str "foo"; Str "bar"; []] /\
    join 0 [Str "foo"; Str "bar"; []] = text /\
    (1 <= length [Str "foo"; Str "bar"; @nil Z])%nat /\
    length [Str "foo"; Str "bar"; @nil Z]
    = S (length (filter (fun c => c = 0) text)) /\
    Forall (fun p => 0 ∉ p) [Str "foo"; Str "bar"; []].
Proof.
  apply (string_table_shape inflate_stored new_ClangIndex
           ([x08; x00; x00; x00] ++ foo_bar_stream)).
  reflexivity.
Defined.

(** ** Ids as hexadecimal text *)

Lemma byte_val_inj (b1 b2 : byte) : byte_val b1 = byte_val b2 -> b1 = b2.
Proof.
  intros H. rewrite <- (byte_of_int_byte_val b1), <- (byte_of_int_byte_val b2).
  by rewrite H.
Qed.

Lemma hex_digit_inj (n m : Z) :
  0 <= n < 16 -> 0 <= m < 16 -> hex_digit n = hex_digit m -> n = m.
Proof.
  unfold hex_digit. intros Hn Hm.
  destruct (Z.ltb_spec n 10), (Z.ltb_spec m 10); lia.
Qed.

Lemma nibbles (b : byte) :
  0 <= Z.shiftr (byte_val b) 4 < 16 /\ 0 <= Z.land (byte_val b) 15 < 16 /\
  byte_val b = 16 * Z.shiftr (byte_val b) 4 + Z.land (byte_val b) 15.
Proof.
  pose proof (byte_val_range b) as Hb.
  rewrite Z.shiftr_div_pow2 by lia. change 15 with (Z.ones 4).
  rewrite Z.land_ones by lia. change (2 ^ 4) with 16.
  pose proof (Z.div_mod (byte_val b) 16). pose proof (Z.mod_pos_bound (byte_val b) 16).
  split; [| lia]. split; [apply Z.div_pos; lia | apply Z.div_lt_upper_bound; lia].
Qed.

Lemma hex_inj (bs1 : list byte) : forall bs2, hex bs1 = hex bs2 -> bs1 = bs2.
Proof.
  induction bs1 as [|b1 bs1 IH]; intros [|b2 bs2]; cbn [hex]; try done.
  intros [= Hhi Hlo Htl]. f_equal; [| by apply IH].
  destruct (nibbles b1) as (H1 & H2 & H3), (nibbles b2) as (H4 & H5 & H6).
  apply hex_digit_inj in Hhi; [| done | done].
  apply hex_digit_inj in Hlo; [| done | done].
  apply byte_val_inj. lia.
Qed.

Lemma hex_digits (bs : list byte) :
  Forall (fun c => 48 <= c <= 57 \/ 97 <= c <= 102) (hex bs).
Proof.
  induction bs as [|b bs IH]; cbn [hex]; [done |].
  destruct (nibbles b) as (H1 & H2 & _).
  constructor; [| constructor; [| done]]; unfold hex_digit;
    match goal with |- context [?n <? 10] => destruct (Z.ltb_spec n 10) end; lia.
Qed.

(** X7.  [consume_id] loses nothing: the text it returns has two characters per
    byte read, all of them in 0-9 and a-f, and two reads that return the
    same text have read the same bytes. *)
Theorem consume_id_faithful (s1 s2 : stream) (i1 i2 : str) (s1' s2' : stream) :
  consume_id s1 = Ok (i1, s1') ->
  consume_id s2 = Ok (i2, s2') ->
  Forall (fun c => 48 <= c <= 57 \/ 97 <= c <= 102) i1 /\
  (i1 = i2 <-> firstn 8 (rest s1) = firstn 8 (rest s2)).
Proof.
  rewrite !consume_id_eq. intros [= <- _] [= <- _].
  split; [apply hex_digits |]. split; [apply hex_inj | by intros ->].
Qed.

Lemma consume_id_faithful_witness :
  Forall (fun c => 48 <= c <= 57 \/ 97 <= c <= 102) (Str "00ff") /\
  (Str "00ff" = Str "00ff"
   <-> firstn 8 (rest (BytesIO [x00; xff])) = firstn 8 (rest (BytesIO [x00; xff]))).
Proof.
  exact (consume_id_faithful (BytesIO [x00; xff]) (BytesIO [x00; xff])
           (Str "00ff") (Str "00ff") (Stream [x00; xff] 2) (Stream [x00; xff] 2)
           eq_refl eq_refl).
Defined.

(** ** Include headers: the packed count and directives *)

Lemma consume_var_below (s : stream) (v : Z) (s' : stream) :
  consume_var s = Ok (v, s') -> 0 <= v < 2 ^ 35.
Proof.
  rewrite consume_var_eq. intros H.
  assert (E : v = var_value 0 (var_bytes 5 (seen s))) by congruence.
  rewrite E. clear H E.
  pose proof (var_value_bound (var_bytes 5 (seen s)) 0 ltac:(lia)) as Hb.
  pose proof (var_bytes_length 5 (seen s)).
  assert (2 ^ (0 + 7 * Z.of_nat (length (var_bytes 5 (seen s)))) <= 2 ^ 35)
    by (apply Z.pow_le_mono_r; lia).
  lia.
Qed.

(** X8.  In every include header that [read_include_header] returns, the
    directive bits are between 0 and 3, the reference count is below 2^33,
    and four times the count plus the bits is the varint that was read. *)
Theorem include_header_unpacks (self : ClangIndex) (s : stream)
    (h : IncludeHeader) (s' : stream) :
  read_include_header self s = Ok (h, s') ->
  0 <= supported_directives h <= 3 /\
  0 <= header_references h < 2 ^ 33 /\
  exists (name : str) (s1 : stream),
    consume_string self s = Ok (name, s1) /\ header h = name /\
    consume_var s1 = Ok (4 * header_references h + supported_directives h, s').
Proof.
  unfold read_include_header, bind, ret.
  destruct (consume_string self s) as [[name s1]|e|]; try done.
  destruct (consume_var s1) as [[v s2]|e|] eqn:Ev; try done.
  pose proof (consume_var_below _ _ _ Ev) as Hv.
  assert (Hland : Z.land v 3 = v mod 4).
  { change 3 with (Z.ones 2). by rewrite Z.land_ones by lia. }
  assert (Hshr : Z.shiftr v 2 = v / 4) by (by rewrite Z.shiftr_div_pow2 by lia).
  intros H. injection H as <- <-.
  unfold supported_directives, header_references, header.
  rewrite Hland, Hshr.
  pose proof (Z.div_mod v 4). pose proof (Z.mod_pos_bound v 4).
  split; [lia |]. split.
  - split; [apply Z.div_pos; lia | apply Z.div_lt_upper_bound; lia].
  - exists name, s1. split; [done |]. split; [done |].
    rewrite Ev. do 2 f_equal. lia.
Qed.

Lemma include_header_unpacks_witness :
  0 <= 2 <= 3 /\ 0 <= 1 < 2 ^ 33 /\
  exists (name : str) (s1 : stream),
    consume_string (set_string_table [Str "a.h"] new_ClangIndex)
      (BytesIO [x00; x06]) = Ok (name, s1) /\
    Str "a.h" = name /\
    consume_var s1 = Ok (4 * 1 + 2, Stream [x00; x06] 2).
Proof.
  exact (include_header_unpacks (set_string_table [Str "a.h"] new_ClangIndex)
           (BytesIO [x00; x06])
           {| header := Str "a.h"; header_references := 1;
              supported_directives := 2 |}
           (Stream [x00; x06] 2) eq_refl).
Defined.

(** ** The enumerations *)

(** X9.  [SymbolKind(v)] and [SymbolLanguage(v)] return the member whose value
    is [v] and nothing else: a kind exists exactly for 1 to 26 (0 is not a
    kind), a language exactly for 0 to 3. *)
Theorem enum_members :
  (forall k, SymbolKind_of_int (SymbolKind_value k) = Some k) /\
  (forall v k, SymbolKind_of_int v = Some k -> v = SymbolKind_value k) /\
  (forall v, is_Some (SymbolKind_of_int v) <-> 1 <= v <= 26) /\
  (forall l, SymbolLanguage_of_int (SymbolLanguage_value l) = Some l) /\
  (forall v l, SymbolLanguage_of_int v = Some l -> v = SymbolLanguage_value l) /\
  (forall v, is_Some (SymbolLanguage_of_int v) <-> 0 <= v <= 3).
Proof.
  assert (K1 : forall k, SymbolKind_of_int (SymbolKind_value k) = Some k)
    by (by intros []).
  assert (K2 : forall v k, SymbolKind_of_int v = Some k -> v = SymbolKind_value k).
  { intros v k. destruct v as [|p|p]; try done.
    do 6 (try destruct p as [p|p|]); try done; by intros [= <-]. }
  assert (L1 : forall l, SymbolLanguage_of_int (SymbolLanguage_value l) = Some l)
    by (by intros []).
  assert (L2 : forall v l, SymbolLanguage_of_int v = Some l ->
                           v = SymbolLanguage_value l).
  { intros v l. destruct v as [|p|p]; try done.
    - by intros [= <-].
    - do 3 (try destruct p as [p|p|]); try done; by intros [= <-]. }
  split; [exact K1 |]. split; [exact K2 |]. split.
  { intros v. split.
    - intros [k Hk]. apply K2 in Hk as ->. by destruct k.
    - intros Hv. destruct v as [|p|p]; try lia.
      do 6 (try destruct p as [p|p|]); try lia; by eexists. }
  split; [exact L1 |]. split; [exact L2 |].
  intros v. split.
  - intros [l Hl]. apply L2 in Hl as ->. by destruct l.
  - intros Hv. destruct v as [|p|p]; try lia; [by eexists |].
    do 3 (try destruct p as [p|p|]); try lia; by eexists.
Qed.

Lemma enum_members_witness : is_Some (SymbolKind_of_int 26).
Proof. apply (proj1 (proj2 (proj2 enum_members)) 26). lia. Defined.

(** ** How many records a chunk holds *)

Lemma while_records_count {A} (body : M A) (data : list byte) (fuel : nat) :
  reads 1 body ->
  forall (acc : list A) (s : stream) (l : list A) (s' : stream),
    buf s = data -> (pos s <= length data)%nat ->
    while_records fuel data body acc s = Ok (l, s') ->
    (length l <= length acc + (length data - pos s))%nat.
Proof.
  intros Hbody. induction fuel as [|fuel IH]; intros acc s l s' Hbuf Hpos;
    cbn [while_records];
    destruct (Nat.ltb_spec (pos s) (length data)) as [Hlt|Hge]; try done.
  - intros [= <- _]. lia.
  - specialize (Hbody s). destruct (body s) as [[r s1]|e|]; try done.
    destruct Hbody as (n & Hn & ->). subst data.
    destruct (advance_pos n s Hpos) as (H1 & H2 & H3). specialize (H3 Hn Hlt).
    intros Hrun. apply IH in Hrun; [| done | done].
    rewrite length_app in Hrun. cbn [length] in Hrun. lia.
  - intros [= <- _]. lia.
Qed.

Lemma while_relations_count (data : list byte) (fuel : nat) :
  forall (acc : list Relation) (s : stream) (l : list Relation) (s' : stream),
    buf s = data -> (pos s <= length data)%nat ->
    while_records fuel data read_relation acc s = Ok (l, s') ->
    (length data - pos s <= 3 * (length l - length acc)
     < length data - pos s + 3)%nat /\ (length acc <= length l)%nat.
Proof.
  induction fuel as [|fuel IH]; intros acc s l s' Hbuf Hpos;
    cbn [while_records];
    destruct (Nat.ltb_spec (pos s) (length data)) as [Hlt|Hge]; try done.
  - intros [= <- _]. lia.
  - rewrite read_relation_eq. subst data. intros Hrun.
    apply IH in Hrun; [| done | by apply advance_pos].
    unfold advance, rest in Hrun. cbn [pos buf] in Hrun.
    rewrite length_drop, length_app in Hrun. cbn [length] in Hrun. lia.
  - intros [= <- _]. lia.
Qed.

(** X10.  A record decoder never returns more records than its payload has
    bytes (so an empty payload gives no records), and [rela] returns one
    relation for every three bytes, a last incomplete group included. *)
Theorem record_counts (self : ClangIndex) (data : list byte) :
  (forall l s', decode_records (read_symbol self) data = Ok (l, s') ->
                (length l <= length data)%nat) /\
  (forall l s', decode_records (read_ref self) data = Ok (l, s') ->
                (length l <= length data)%nat) /\
  (forall l s', decode_records (read_source self) data = Ok (l, s') ->
                (length l <= length data)%nat) /\
  (forall l s', decode_records (read_command self) data = Ok (l, s') ->
                (length l <= length data)%nat) /\
  (forall l s', decode_records read_relation data = Ok (l, s') ->
                (length data <= 3 * length l < length data + 3)%nat).
Proof.
  unfold decode_records.
  split; [| split; [| split; [| split]]]; intros l s' H.
  - apply while_records_count in H; simpl in *;
      [lia | apply reads_read_symbol | done | lia].
  - apply while_records_count in H; simpl in *;
      [lia | apply reads_read_ref | done | lia].
  - apply while_records_count in H; simpl in *;
      [lia | apply reads_read_source | done | lia].
  - apply while_records_count in H; simpl in *;
      [lia | apply reads_read_command | done | lia].
  - apply while_relations_count in H; simpl in *; [lia | done | lia].
Qed.

Lemma record_counts_witness :
  (length [x01; x02; x03; x04; x05]
   <= 3 * length [ {| subject := 1; predicate := 2; object := 3 |};
                   {| subject := 4; predicate := 5; object := 0 |} ]
   < length [x01; x02; x03; x04; x05] + 3)%nat.
Proof.
  exact (proj2 (proj2 (proj2 (proj2
           (record_counts new_ClangIndex [x01; x02; x03; x04; x05]))))
           _ (Stream [x01; x02; x03; x04; x05] 5) eq_refl).
Defined.

(** ** Strings without a string table *)

Lemma consume_string_no_table (self : ClangIndex) (s : stream) :
  string_table self = None -> consume_string self s = Raise AttributeError.
Proof.
  intros H. unfold consume_string, bind. by rewrite consume_var_eq, H.
Qed.

Lemma decode_records_first_raise {A} (body : M A) (data : list byte) (e : exn) :
  data <> [] -> body (BytesIO data) = Raise e ->
  decode_records body data = Raise e.
Proof.
  intros Hne He. unfold decode_records. cbn [while_records].
  assert ((pos (BytesIO data) <? length data)%nat = true) as ->.
  { apply Nat.ltb_lt. destruct data; [done | simpl; lia]. }
  by rewrite He.
Qed.

Lemma no_table_raises (self : ClangIndex) (data : list byte) :
  string_table self = None ->
  data <> [] ->
  parse_cmdl self data = Raise AttributeError /\
  parse_srcs self data = Raise AttributeError /\
  (is_Some (SymbolKind_of_int (peek 8 (BytesIO data))) ->
   is_Some (SymbolLanguage_of_int (peek 9 (BytesIO data))) ->
   parse_symb self data = Raise AttributeError).
Proof.
  intros Ht Hne. unfold parse_cmdl, parse_srcs, parse_symb, parse_records.
  split; [| split].
  - rewrite (decode_records_first_raise _ _ AttributeError); [done | done |].
    unfold read_command, bind at 1. by rewrite consume_string_no_table.
  - rewrite (decode_records_first_raise _ _ AttributeError); [done | done |].
    unfold read_source, bind at 1 2. by rewrite read_eq, consume_string_no_table.
  - intros [k Hk] [l Hl].
    rewrite (decode_records_first_raise _ _ AttributeError); [done | done |].
    unfold read_symbol, bind at 1 2 3 4 5 6.
    rewrite consume_id_eq, consume8_eq, peek_advance.
    change (8 + 0)%nat with 8%nat. unfold enum_call at 1. rewrite Hk.
    unfold ret at 1. rewrite consume8_eq, !peek_advance.
    change (8 + (1 + 0))%nat with 9%nat. unfold enum_call at 1. rewrite Hl.
    unfold ret at 1. by rewrite consume_string_no_table.
Qed.

(** X11.  While the object has no string table, a [cmdl] or [srcs] chunk with
    any payload at all, and a [symb] chunk whose first kind and language
    bytes are valid, raise [AttributeError]. *)
Theorem strings_need_table (self : ClangIndex) (data : list byte) :
  string_table self = None ->
  data <> [] ->
  parse_cmdl self data = Raise AttributeError /\
  parse_srcs self data = Raise AttributeError /\
  (is_Some (SymbolKind_of_int (peek 8 (BytesIO data))) ->
   is_Some (SymbolLanguage_of_int (peek 9 (BytesIO data))) ->
   parse_symb self data = Raise AttributeError).
Proof. apply no_table_raises. Qed.

Lemma strings_need_table_witness :
  parse_cmdl new_ClangIndex [x00]= Raise AttributeError /\
  parse_srcs new_ClangIndex [x00] = Raise AttributeError /\
  (is_Some (SymbolKind_of_int (peek 8 (BytesIO [x00]))) ->
   is_Some (SymbolLanguage_of_int (peek 9 (BytesIO [x00]))) ->
   parse_symb new_ClangIndex [x00] = Raise AttributeError).
Proof. by apply (strings_need_table new_ClangIndex [x00]). Defined.

(** ** The dispatcher: framing, keys, sizes *)

(** X17.  A chunk is framed by what is there: when its tag decodes, [next_chunk]
    returns the tag and a payload of the declared length or, when the file
    ends before, of what is left, and stops at the end of that payload.  A
    declared size that runs past the end of the file is no error. *)
Theorem chunk_framing (file : stream) (id : str) :
  decode (firstn 4 (rest file)) = Some id ->
  let size := int_from_bytes (firstn 4 (skipn 4 (rest file))) in
  exists data file',
    next_chunk file = Ok ((id, data), file') /\
    data = firstn (Z.to_nat size) (skipn 8 (rest file)) /\
    0 <= size < 2 ^ 32 /\
    length data = Nat.min (Z.to_nat size) (length (rest file) - 8) /\
    buf file' = buf file /\
    pos file' = (pos file + Nat.min (8 + Z.to_nat size) (length (rest file)))%nat.
Proof.
  intros Hd size. pose proof (next_chunk_eq file) as Hn. cbv zeta in Hn.
  rewrite Hd in Hn. eexists _, _. split; [exact Hn |]. split; [done |].
  split.
  - pose proof (int_from_bytes_bound (take 4 (drop 4 (rest file)))) as Hb.
    rewrite length_take in Hb. fold size in Hb. split; [lia |].
    eapply Z.lt_le_trans; [apply Hb |].
    change (2 ^ 32) with (256 ^ 4). apply Z.pow_le_mono_r; lia.
  - split; [by rewrite length_take, length_drop |]. done.
Qed.

Lemma chunk_framing_witness :
  exists data file',
    next_chunk (Stream unknown_tag_file 12) = Ok ((Str "xxxx", data), file') /\
    data = firstn (Z.to_nat 4) (skipn 8 (rest (Stream unknown_tag_file 12))) /\
    0 <= 4 < 2 ^ 32 /\
    length data = Nat.min (Z.to_nat 4) (length (rest (Stream unknown_tag_file 12)) - 8) /\
    buf file' = unknown_tag_file /\
    pos file' = (12 + Nat.min (8 + Z.to_nat 4)
                         (length (rest (Stream unknown_tag_file 12))))%nat.
Proof.
  exact (chunk_framing (Stream unknown_tag_file 12) (Str "xxxx") eq_refl).
Defined.

Section DispatchMore.

Variable zlib_decompress : list byte -> Z -> option (list byte).

Lemma parse_riff_file_rounds (contents : list byte)
    (cindex : gmap str chunk_value) :
  parse_riff_file zlib_decompress contents = Ok cindex ->
  exists log st file,
    rounds zlib_decompress contents log st file /\
    ~ Z.of_nat (pos file) < riff_size contents /\
    snd st = cindex.
Proof.
  unfold parse_riff_file, bind. rewrite read_header_eq.
  destruct (parse_chunks _ _ _ _ _) as [[[self ci] file]|e|] eqn:Hrun; try done.
  intros [= <-].
  destruct (parse_chunks_rounds _ _ _ _ _ _ _ _ (rounds_start _ contents) Hrun)
    as (log & Hr & Hend).
  by exists log, (self, ci), file.
Qed.

Lemma tagged_records_table {A} (tag : list A -> chunk_value) (body : M A)
    (set : list A -> ClangIndex -> ClangIndex) (self : ClangIndex)
    (data : list byte) (v : chunk_value) (self' : ClangIndex) :
  (forall l x, string_table (set l x) = string_table x) ->
  tagged tag (parse_records body set self data) = Ok (v, self') ->
  string_table self' = string_table self.
Proof.
  intros Hset. unfold parse_records.
  destruct (decode_records body data) as [[l s]|e|]; cbn [tagged]; try done.
  intros H. injection H as _ <-. apply Hset.
Qed.

Lemma parse_data_table (self : ClangIndex) (id : str) (data : list byte)
    (v : chunk_value) (self' : ClangIndex) :
  parse_data zlib_decompress self id data = Ok (v, self') ->
  if decide (id = Str "stri")
  then exists t, v = VStrings t /\ string_table self' = Some t
  else string_table self' = string_table self.
Proof.
  destruct (decide (id = Str "stri")) as [->|Hne].
  - change (parse_data zlib_decompress self (Str "stri") data)
      with (tagged VStrings (parse_stri zlib_decompress self data)).
    destruct (parse_stri zlib_decompress self data) as [[t x]|e|] eqn:Hs;
      cbn [tagged]; try done.
    intros H. injection H as <- <-.
    destruct (parse_stri_ok _ _ _ _ _ Hs) as (raw & text & _ & _ & _ & ->).
    by exists t.
  - unfold parse_data.
    case_bool_decide as E; [clear E | clear E].
    { unfold parse_meta. cbn [tagged]. intros H. by injection H as _ <-. }
    case_bool_decide as E; [done | clear E].
    repeat (case_bool_decide as E;
            [clear E; by apply tagged_records_table | clear E]).
    done.
Qed.

Lemma last_under_snoc (id id' : str) (v : chunk_value)
    (log : list (str * chunk_value)) :
  last_under id (log ++ [(id', v)])
  = if decide (id' = id) then Some v else last_under id log.
Proof.
  unfold last_under. rewrite filter_app, filter_cons, filter_nil. cbn [fst].
  destruct (decide (id' = id)); [by rewrite last_snoc | by rewrite app_nil_r].
Qed.

Lemma rounds_table (contents : list byte)
    (log : list (str * chunk_value)) (st : session) (file : stream) :
  rounds zlib_decompress contents log st file ->
  VStrings <$> string_table (fst st) = last_under (Str "stri") log /\
  snd st !! Str "stri" = VStrings <$> string_table (fst st) /\
  (Str "stri" ∉ map fst log -> string_table (fst st) = None).
Proof.
  intros Hr.
  assert (H : VStrings <$> string_table (fst st) = last_under (Str "stri") log).
  { induction Hr as [|log st file id data file' v self' _ IH Hcond Hnext Hdata];
      [done |].
    rewrite last_under_snoc. cbn [fst].
    apply parse_data_table in Hdata. destruct (decide (id = Str "stri")).
    - destruct Hdata as (t & -> & ->). done.
    - by rewrite Hdata. }
  split; [done |].
  destruct (rounds_inv _ _ _ _ _ Hr) as (_ & _ & Hlog & _).
  split; [by rewrite Hlog |].
  intros Hno. destruct (string_table (fst st)) as [t|] eqn:Et; [| done].
  exfalso. apply Hno. cbn in H. unfold last_under in H.
  destruct (last _) as [[id v]|] eqn:El; [| done].
  apply last_Some_elem_of, list_elem_of_filter in El as [Hid Hin].
  cbn in Hid. subst id. apply list_elem_of_In, in_map_iff. exists (Str "stri", v).
  split; [done | by apply list_elem_of_In].
Qed.

(** X18.  The string table in force.  Whenever the loop of [parse_riff_file]
    tests its condition, the table that string lookups use is the one of
    the last [stri] chunk decoded so far, the same that the dictionary
    holds under ["stri"]; there is none before the first [stri] chunk. *)
Theorem table_in_force (contents : list byte)
    (log : list (str * chunk_value)) (st : session) (file : stream) :
  rounds zlib_decompress contents log st file ->
  VStrings <$> string_table (fst st) = last_under (Str "stri") log /\
  snd st !! Str "stri" = VStrings <$> string_table (fst st) /\
  (Str "stri" ∉ map fst log -> string_table (fst st) = None).
Proof. apply rounds_table. Qed.

(** X19.  A [cmdl] or [srcs] chunk with a payload, met before any [stri] chunk,
    ends the whole call with [AttributeError]. *)
Theorem strings_before_stri (contents : list byte)
    (log : list (str * chunk_value)) (st : session) (file : stream)
    (id : str) (data : list byte) (file' : stream) :
  rounds zlib_decompress contents log st file ->
  Z.of_nat (pos file) < riff_size contents ->
  Str "stri" ∉ map fst log ->
  next_chunk file = Ok ((id, data), file') ->
  id = Str "cmdl" \/ id = Str "srcs" ->
  data <> [] ->
  parse_riff_file zlib_decompress contents = Raise AttributeError.
Proof.
  intros Hr Hcond Hno Hnext Hid Hne.
  apply (rounds_raise _ _ _ _ _ _ Hr Hcond).
  rewrite (parse_one_chunk_round _ _ _ _ _ _ Hnext).
  pose proof (proj2 (proj2 (rounds_table _ _ _ _ Hr)) Hno) as Ht.
  destruct (no_table_raises (fst st) data Ht Hne) as (Hc & Hs & _).
  destruct Hid as [-> | ->].
  - change (parse_data zlib_decompress st.1 (Str "cmdl") data)
      with (tagged VCommands (parse_cmdl st.1 data)). by rewrite Hc.
  - change (parse_data zlib_decompress st.1 (Str "srcs") data)
      with (tagged VSources (parse_srcs st.1 data)). by rewrite Hs.
Qed.

End DispatchMore.

Section DispatchResult.

Variable zlib_decompress : list byte -> Z -> option (list byte).

Lemma rounds_tags (contents : list byte)
    (log : list (str * chunk_value)) (st : session) (file : stream) :
  rounds zlib_decompress contents log st file ->
  Forall (fun p => fst p ∈ chunk_tags) log.
Proof.
  induction 1 as [|log st file id data file' v self' _ IH Hcond Hnext Hdata];
    [done |].
  apply Forall_app. split; [done |]. constructor; [| done].
  by eapply parse_data_ok_tag.
Qed.

Lemma result_keys_size_aux (contents : list byte)
    (cindex : gmap str chunk_value) :
  parse_riff_file zlib_decompress contents = Ok cindex ->
  riff_size contents <= Z.of_nat (length contents).
Proof.
  intros H.
  destruct (parse_riff_file_rounds _ _ _ H) as (log & st & file & Hr & Hend & <-).
  destruct (rounds_inv _ _ _ _ _ Hr) as (_ & Hpos & _ & _). lia.
Qed.

(** X20.  The keys of the dictionary that [parse_riff_file] returns are among
    the seven tags, and the final position is at or past the size field,
    which is therefore no more than the length of the file. *)
Theorem result_keys_and_size (contents : list byte)
    (cindex : gmap str chunk_value) :
  parse_riff_file zlib_decompress contents = Ok cindex ->
  (forall id, is_Some (cindex !! id) -> id ∈ chunk_tags) /\
  riff_size contents <= Z.of_nat (length contents).
Proof.
  intros H.
  destruct (parse_riff_file_rounds _ _ _ H) as (log & st & file & Hr & Hend & <-).
  destruct (rounds_inv _ _ _ _ _ Hr) as (_ & Hpos & Hlog & _).
  split; [| lia].
  intros id [v Hv]. rewrite Hlog in Hv. unfold last_under in Hv.
  destruct (last _) as [[id' v']|] eqn:El; [| done].
  apply last_Some_elem_of, list_elem_of_filter in El as [Hid Hin].
  cbn in Hid. subst id'.
  pose proof (rounds_tags _ _ _ _ Hr) as Htags.
  rewrite Forall_forall in Htags. by apply (Htags (id, v')).
Qed.

(** X21.  A size field beyond the end of the file: the call always raises. *)
Theorem size_beyond_file_fails (contents : list byte) :
  Z.of_nat (length contents) < riff_size contents ->
  exists e, parse_riff_file zlib_decompress contents = Raise e.
Proof.
  intros Hsize.
  destruct (parse_riff_file zlib_decompress contents) as [cindex|e|] eqn:H.
  - apply result_keys_size_aux in H. lia.
  - by exists e.
  - by apply parse_riff_file_fuel in H.
Qed.

(** X22.  A size field of 12 or less (or of no more than the file's length, for
    a file shorter than 12 bytes): no chunk is read and the result is the
    empty dictionary.  This is the case of the empty file. *)
Theorem small_size_reads_nothing (contents : list byte) :
  riff_size contents <= Z.of_nat (Nat.min 12 (length contents)) ->
  parse_riff_file zlib_decompress contents = Ok ∅.
Proof.
  intros Hsize. unfold parse_riff_file, bind. rewrite read_header_eq.
  cbn [parse_chunks].
  assert (Hpos : pos (advance 12 (BytesIO contents)) = Nat.min 12 (length contents)).
  { unfold advance. by rewrite rest_BytesIO. }
  rewrite Hpos.
  assert ((Z.of_nat (Nat.min 12 (length contents)) <? riff_size contents) = false)
    as -> by (apply Z.ltb_ge; lia).
  done.
Qed.

End DispatchResult.

(** ** Whole containers *)

Lemma int_to_bytes_length (n : nat) : forall v, length (int_to_bytes n v) = n.
Proof. induction n as [|n IH]; intros v; simpl; [done | by rewrite IH]. Qed.

Lemma chunk_bytes_length (c : list byte * list byte) :
  length (fst c) = 4%nat -> length (chunk_bytes c) = (8 + length (snd c))%nat.
Proof.
  intros H. unfold chunk_bytes. rewrite !length_app, int_to_bytes_length. lia.
Qed.

Lemma next_chunk_on_chunk (file : stream) (c : list byte * list byte)
    (tl : list byte) :
  length (fst c) = 4%nat ->
  Z.of_nat (length (snd c)) < 2 ^ 32 ->
  rest file = chunk_bytes c ++ tl ->
  next_chunk file
  = match decode (fst c) with
    | Some id => Ok ((id, snd c), advance (8 + length (snd c)) file)
    | None => Raise UnicodeDecodeError
    end.
Proof.
  intros Htag Hlen Hrest. pose proof (next_chunk_eq file) as Hn. cbv zeta in Hn.
  rewrite Hn, Hrest. unfold chunk_bytes. rewrite <- !app_assoc.
  rewrite (take_app_length' (fst c)) by done.
  replace (drop 8 (c.1 ++ int_to_bytes 4 (Z.of_nat (length c.2)) ++ c.2 ++ tl))
    with (c.2 ++ tl).
  2:{ rewrite <- (drop_drop _ 4 4), (drop_app_length' (fst c)) by done.
      by rewrite (drop_app_length' (int_to_bytes 4 _))
        by (by rewrite int_to_bytes_length). }
  rewrite (drop_app_length' (fst c)) by done.
  rewrite (take_app_length' (int_to_bytes 4 _)) by (by rewrite int_to_bytes_length).
  rewrite int_from_to_bytes by (change (256 ^ Z.of_nat 4) with (2 ^ 32); lia).
  by rewrite Nat2Z.id, take_app_length.
Qed.

Section Containers.

Variable zlib_decompress : list byte -> Z -> option (list byte).

Lemma parse_chunks_run (rs : Z) (tail : list byte)
    (chunks : list (list byte * list byte)) :
  Forall chunk_ok chunks ->
  (length tail <= 8)%nat ->
  tail <> [] \/ (forall c, last chunks = Some c -> snd c <> []) ->
  forall (fuel : nat) (st : session) (file : stream),
    rest file = concat (map chunk_bytes chunks) ++ tail ->
    Z.of_nat (pos file) + Z.of_nat (length (rest file)) = rs + 8 ->
    (length (rest file) < fuel)%nat ->
    match parse_chunks zlib_decompress fuel rs st file with
    | Ok (st', _) => run_chunks zlib_decompress st chunks = Ok st'
    | Raise e => run_chunks zlib_decompress st chunks = Raise e
    | OutOfFuel => run_chunks zlib_decompress st chunks = OutOfFuel
    end.
Proof.
  intros Hok Htail. induction Hok as [|c cs [Htag Hlen] Hcs IH];
    intros Hlast fuel st file Hrest Hpos Hfuel;
    (destruct fuel as [|fuel]; [lia |]); cbn [parse_chunks run_chunks].
  - cbn [map concat app] in Hrest. rewrite Hrest in Hpos.
    assert ((Z.of_nat (pos file) <? rs) = false) as -> by (apply Z.ltb_ge; lia).
    done.
  - cbn [map concat] in Hrest. rewrite <- app_assoc in Hrest.
    assert (Hlong : (8 < length (rest file))%nat).
    { rewrite Hrest, length_app, chunk_bytes_length, length_app by done.
      destruct Hlast as [Ht|Hl].
      - destruct tail; [done | simpl; lia].
      - destruct cs as [|c' cs'].
        + specialize (Hl c eq_refl). destruct (snd c); [done | simpl; lia].
        + inversion Hcs as [|? ? [Htag' _] _]; subst. cbn [map concat].
          rewrite length_app, chunk_bytes_length by done. lia. }
    assert ((Z.of_nat (pos file) <? rs) = true) as -> by (apply Z.ltb_lt; lia).
    pose proof (next_chunk_on_chunk file c _ Htag Hlen Hrest) as Hnext.
    destruct (decode (fst c)) as [id|].
    + rewrite (parse_one_chunk_round _ _ _ _ _ _ Hnext).
      destruct (parse_data _ _ _ _) as [[v self']|e|]; try done.
      assert (Hrest' : rest (advance (8 + length (snd c)) file)
                       = concat (map chunk_bytes cs) ++ tail).
      { rewrite rest_advance, Hrest.
        by rewrite (drop_app_length' (chunk_bytes c))
          by (by rewrite chunk_bytes_length). }
      apply IH; [| done | |].
      * destruct Hlast as [Ht|Hl]; [by left | right].
        intros c' Hc'. apply Hl. rewrite last_cons. by rewrite Hc'.
      * rewrite Hrest'. unfold advance. cbn [pos].
        rewrite Hrest, length_app, chunk_bytes_length in * by done. lia.
      * rewrite Hrest'.
        rewrite Hrest, length_app, chunk_bytes_length in Hfuel by done. lia.
    + unfold parse_one_chunk, bind. by rewrite Hnext.
Qed.

Lemma riff_container_header (magic format body : list byte) :
  length magic = 4%nat -> length format = 4%nat ->
  4 + Z.of_nat (length body) < 2 ^ 32 ->
  let contents := magic ++ int_to_bytes 4 (4 + Z.of_nat (length body))
                    ++ format ++ body in
  riff_size contents = 4 + Z.of_nat (length body) /\
  rest (advance 12 (BytesIO contents)) = body /\
  pos (advance 12 (BytesIO contents)) = 12%nat /\
  length contents = (12 + length body)%nat.
Proof.
  intros Hm Hf Hsize contents. subst contents. unfold riff_size.
  rewrite (drop_app_length' magic) by done.
  rewrite (take_app_length' (int_to_bytes 4 _)) by (by rewrite int_to_bytes_length).
  rewrite int_from_to_bytes by (change (256 ^ Z.of_nat 4) with (2 ^ 32); lia).
  split; [done |].
  assert (Hlen : length (magic ++ int_to_bytes 4 (4 + Z.of_nat (length body))
                          ++ format ++ body) = (12 + length body)%nat).
  { rewrite !length_app, int_to_bytes_length. lia. }
  split; [| split; [| done]].
  - rewrite rest_advance, rest_BytesIO.
    rewrite <- (drop_drop _ 8 4), (drop_app_length' magic) by done.
    rewrite <- (drop_drop _ 4 4).
    rewrite (drop_app_length' (int_to_bytes 4 _)) by (by rewrite int_to_bytes_length).
    by rewrite (drop_app_length' format).
  - unfold advance. rewrite rest_BytesIO, Hlen. cbn [pos BytesIO]. lia.
Qed.

Lemma riff_container_run (magic format tail : list byte)
    (chunks : list (list byte * list byte)) :
  length magic = 4%nat -> length format = 4%nat ->
  Forall chunk_ok chunks ->
  (length tail <= 8)%nat ->
  tail <> [] \/ (forall c, last chunks = Some c -> snd c <> []) ->
  let body := concat (map chunk_bytes chunks) ++ tail in
  4 + Z.of_nat (length body) < 2 ^ 32 ->
  parse_riff_file zlib_decompress
    (magic ++ int_to_bytes 4 (4 + Z.of_nat (length body)) ++ format ++ body)
  = match run_chunks zlib_decompress (new_ClangIndex, ∅) chunks with
    | Ok st => Ok (snd st)
    | Raise e => Raise e
    | OutOfFuel => OutOfFuel
    end.
Proof.
  intros Hm Hf Hok Htail Hlast body Hsize.
  destruct (riff_container_header magic format body Hm Hf Hsize)
    as (Hrs & Hrest & Hpos & Hlen).
  unfold parse_riff_file, bind. rewrite read_header_eq, Hrs.
  pose proof (parse_chunks_run (4 + Z.of_nat (length body)) tail chunks Hok Htail
                Hlast (S (length (magic ++ int_to_bytes 4 (4 + Z.of_nat (length body))
                                    ++ format ++ body)))
                (new_ClangIndex, ∅) _ Hrest) as H.
  rewrite Hrest, Hpos, Hlen in H. specialize (H ltac:(lia) ltac:(lia)).
  rewrite Hlen.
  destruct (parse_chunks _ _ _ _ _) as [[[self ci] file]|e|]; by rewrite H.
Qed.

(** X23.  A container written in the usual way (the size field counts what
    follows it) whose last chunk has a payload: [parse_riff_file] is
    [parse_data] run over the chunks in order, each result stored under
    its tag, with the first exception ending the call.  Neither the magic
    nor the format word has any effect. *)
Theorem container_decodes (magic format : list byte)
    (chunks : list (list byte * list byte)) :
  length magic = 4%nat -> length format = 4%nat ->
  Forall chunk_ok chunks ->
  (forall c, last chunks = Some c -> snd c <> []) ->
  4 + Z.of_nat (length (concat (map chunk_bytes chunks))) < 2 ^ 32 ->
  parse_riff_file zlib_decompress (riff_container magic format chunks)
  = match run_chunks zlib_decompress (new_ClangIndex, ∅) chunks with
    | Ok st => Ok (snd st)
    | Raise e => Raise e
    | OutOfFuel => OutOfFuel
    end.
Proof.
  intros Hm Hf Hok Hlast Hsize.
  pose proof (riff_container_run magic format [] chunks Hm Hf Hok) as H.
  cbv zeta in H. rewrite app_nil_r in H.
  apply H; [simpl; lia | by right | done].
Qed.


End Containers.

(** ** The further properties on concrete inputs *)

Ltac wire_ok :=
  repeat first [split | constructor]; cbn; try reflexivity; try lia.

Lemma parse_cmdl_roundtrip_witness :
  parse_cmdl demo_self (concat (map Wire.command_bytes [demo_command]))
  = Ok (map (Wire.to_Command demo_table) [demo_command],
        set_commands (map (Wire.to_Command demo_table) [demo_command]) demo_self).
Proof. apply (parse_cmdl_roundtrip demo_self demo_table eq_refl). wire_ok. Defined.

Lemma parse_srcs_roundtrip_witness :
  parse_srcs demo_self (concat (map Wire.source_bytes [demo_source; demo_source]))
  = Ok (map (Wire.to_Source demo_table) [demo_source; demo_source],
        set_sources (map (Wire.to_Source demo_table) [demo_source; demo_source])
          demo_self).
Proof. apply (parse_srcs_roundtrip demo_self demo_table eq_refl). wire_ok. Defined.

Lemma parse_refs_roundtrip_witness :
  parse_refs demo_self (concat (map Wire.ref_bytes [demo_ref]))
  = Ok (map (Wire.to_Ref demo_table) [demo_ref],
        set_refs (map (Wire.to_Ref demo_table) [demo_ref]) demo_self).
Proof. apply (parse_refs_roundtrip demo_self demo_table eq_refl). wire_ok. Defined.

Lemma parse_symb_roundtrip_witness :
  parse_symb demo_self (concat (map Wire.symbol_bytes [demo_symbol; demo_symbol]))
  = Ok (map (Wire.to_Symbol demo_table) [demo_symbol; demo_symbol],
        set_symbols (map (Wire.to_Symbol demo_table) [demo_symbol; demo_symbol])
          demo_self).
Proof. apply (parse_symb_roundtrip demo_self demo_table eq_refl). wire_ok. Defined.

Lemma container_decodes_witness :
  parse_riff_file inflate_stored (riff_container tag_RIFF tag_CdIx demo_chunks)
  = match run_chunks inflate_stored (new_ClangIndex, ∅) demo_chunks with
    | Ok st => Ok (snd st)
    | Raise e => Raise e
    | OutOfFuel => OutOfFuel
    end.
Proof.
  apply container_decodes.
  - reflexivity.
  - reflexivity.
  - wire_ok.
  - intros c H. injection H as <-. discriminate.
  - vm_compute. reflexivity.
Defined.

(** The container above decodes to the table and the command entry with
    its strings resolved. *)
Example demo_container_decodes :
  parse_riff_file inflate_stored (riff_container tag_RIFF tag_CdIx demo_chunks)
  = Ok (<[ Str "cmdl" := VCommands
             [ {| directory := Str "bar";
                  cmd_commands := [Str "foo"; Str "bar"; Str "foo"] |} ] ]>
          {[ Str "stri" := VStrings demo_table ]}).
Proof. vm_compute. reflexivity. Qed.


Lemma demo_rounds :
  rounds inflate_stored (riff_container tag_RIFF tag_CdIx demo_chunks)
    ([] ++ [(Str "stri", VStrings demo_table)])
    (demo_self, <[ Str "stri" := VStrings demo_table ]> ∅)
    (Stream (riff_container tag_RIFF tag_CdIx demo_chunks) 43).
Proof.
  apply (rounds_next inflate_stored _ [] (new_ClangIndex, ∅) _ (Str "stri")
           ([x08; x00; x00; x00] ++ foo_bar_stream) _ (VStrings demo_table)
           demo_self (rounds_start _ _)); reflexivity.
Defined.

Lemma table_in_force_witness :
  VStrings <$> string_table demo_self
  = last_under (Str "stri") ([] ++ [(Str "stri", VStrings demo_table)]) /\
  (<[ Str "stri" := VStrings demo_table ]> ∅ : gmap str chunk_value) !! Str "stri"
  = VStrings <$> string_table demo_self /\
  (Str "stri" ∉ map fst ([] ++ [(Str "stri", VStrings demo_table)]) ->
   string_table demo_self = None).
Proof. exact (table_in_force inflate_stored _ _ _ _ demo_rounds). Defined.

Lemma strings_before_stri_witness :
  parse_riff_file inflate_stored
    (riff_container tag_RIFF tag_CdIx [(tag_cmdl, [x00])])
  = Raise AttributeError.
Proof.
  apply (strings_before_stri inflate_stored _ [] _ _ (Str "cmdl") [x00]
           (Stream (riff_container tag_RIFF tag_CdIx [(tag_cmdl, [x00])]) 21)
           (rounds_start _ _)).
  - reflexivity.
  - apply not_elem_of_nil.
  - reflexivity.
  - by left.
  - discriminate.
Defined.

Lemma result_keys_and_size_witness :
  (forall id, is_Some (({[ Str "meta" := VVersion 2 ]} : gmap str chunk_value) !! id) ->
              id ∈ chunk_tags) /\
  riff_size two_meta_file <= Z.of_nat (length two_meta_file).
Proof.
  apply (result_keys_and_size inflate_stored two_meta_file).
  vm_compute. reflexivity.
Defined.

Lemma size_beyond_file_fails_witness :
  exists e,
    parse_riff_file inflate_stored [x52; x49; x46; x46; xff; x00; x00; x00]
    = Raise e.
Proof. apply size_beyond_file_fails. vm_compute. reflexivity. Defined.

Lemma small_size_reads_nothing_witness : parse_riff_file inflate_stored [] = Ok ∅.
Proof. apply small_size_reads_nothing. vm_compute. discriminate. Defined.

(** ** Chunks that the loop reads, and chunks that it does not *)





Lemma last_under_cons (id id0 : str) (v : chunk_value)
    (log : list (str * chunk_value)) :
  last_under id ((id0, v) :: log)
  = match last_under id log with
    | Some w => Some w
    | None => if decide (id0 = id) then Some v else None
    end.
Proof.
  unfold last_under. rewrite filter_cons. cbn [fst].
  destruct (decide (id0 = id)); [| by destruct (last _)].
  rewrite last_cons. by destruct (last _).
Qed.

Section ReadChunks.

Variable zlib_decompress : list byte -> Z -> option (list byte).


Lemma run_chunks_log (chunks : list (list byte * list byte)) :
  forall st st',
    run_chunks zlib_decompress st chunks = Ok st' ->
    exists log,
      Forall2 (fun c p =>
                 decode (fst c) = Some (fst p) /\
                 exists self self',
                   parse_data zlib_decompress self (fst p) (snd c)
                   = Ok (snd p, self')) chunks log /\
      forall id, snd st' !! id = match last_under id log with
                                 | Some v => Some v
                                 | None => snd st !! id
                                 end.
Proof.
  induction chunks as [|c cs IH]; intros st st'; cbn [run_chunks].
  - intros [= <-]. exists []. split; [constructor | done].
  - destruct (decode (fst c)) as [id0|] eqn:Hd; [| done].
    destruct (parse_data _ _ _ _) as [[v self']|e|] eqn:Hp; try done.
    intros Hrun. destruct (IH _ _ Hrun) as (log & Hlog & Hlast).
    exists ((id0, v) :: log). split.
    + constructor; [| done]. split; [done |]. by exists (fst st), self'.
    + intros id. rewrite Hlast, last_under_cons. cbn [snd].
      destruct (last_under id log); [done |].
      destruct (decide (id0 = id)) as [->|Hne];
        [by rewrite lookup_insert_eq | by rewrite lookup_insert_ne].
Qed.

(** C9, as the code has it.  When [parse_riff_file] returns, its
    dictionary holds under each tag what [parse_data] returned for the last
    chunk with that tag among the chunks that the loop read, in file order
    (each one at a position below the size field): a later chunk that is
    read replaces the value of an earlier one, and a tag that no chunk read
    had has no entry.  In a container written in the usual way whose last
    chunk has a payload, every chunk is read, so the entry is that of the
    last chunk with the tag in the file. *)
Theorem last_chunk_wins :
  (forall (contents : list byte) (cindex : gmap str chunk_value),
      parse_riff_file zlib_decompress contents = Ok cindex ->
      exists log st file,
        rounds zlib_decompress contents log st file /\
        ~ Z.of_nat (pos file) < riff_size contents /\
        snd st = cindex /\
        (forall id, cindex !! id = last_under id log) /\
        (forall id v log1 log2,
            log = log1 ++ (id, v) :: log2 -> id ∉ map fst log2 ->
            cindex !! id = Some v)) /\
  (forall (magic format : list byte) (chunks : list (list byte * list byte))
          (cindex : gmap str chunk_value),
      length magic = 4%nat -> length format = 4%nat ->
      Forall chunk_ok chunks ->
      (forall c, last chunks = Some c -> snd c <> []) ->
      4 + Z.of_nat (length (concat (map chunk_bytes chunks))) < 2 ^ 32 ->
      parse_riff_file zlib_decompress (riff_container magic format chunks)
      = Ok cindex ->
      exists log,
        Forall2 (fun c p =>
                   decode (fst c) = Some (fst p) /\
                   exists self self',
                     parse_data zlib_decompress self (fst p) (snd c)
                     = Ok (snd p, self')) chunks log /\
        (forall id, cindex !! id = last_under id log) /\
        (forall id v log1 log2,
            log = log1 ++ (id, v) :: log2 -> id ∉ map fst log2 ->
            cindex !! id = Some v)).
Proof.
  split.
  - intros contents cindex H.
    destruct (parse_riff_file_rounds _ _ _ H) as (log & st & file & Hr & Hend & <-).
    destruct (rounds_inv _ _ _ _ _ Hr) as (_ & _ & Hlog & _).
    exists log, st, file. repeat split; try done.
    intros id v log1 log2 -> Hid. rewrite Hlog. by apply last_under_app.
  - intros magic format chunks cindex Hm Hf Hok Hlast Hsize H.
    pose proof (riff_container_run zlib_decompress magic format [] chunks
                  Hm Hf Hok) as Hrun.
    cbv zeta in Hrun. rewrite app_nil_r in Hrun. unfold riff_container in H.
    rewrite Hrun in H; [| simpl; lia | by right | done].
    destruct (run_chunks _ _ _) as [st|e|] eqn:Hc; try done.
    injection H as <-.
    destruct (run_chunks_log _ _ _ Hc) as (log & Hlog & Hl).
    assert (Hlu : forall id, snd st !! id = last_under id log).
    { intros id. rewrite Hl. cbn [snd]. rewrite lookup_empty.
      by destruct (last_under id log). }
    exists log. split; [done |]. split; [done |].
    intros id v log1 log2 -> Hid. rewrite Hlu. by apply last_under_app.
Qed.

End ReadChunks.


Lemma last_chunk_wins_witness :
  exists log st file,
    rounds inflate_stored two_meta_file log st file /\
    ~ Z.of_nat (pos file) < riff_size two_meta_file /\
    snd st = {[ Str "meta" := VVersion 2 ]} /\
    (forall id, ({[ Str "meta" := VVersion 2 ]} : gmap str chunk_value) !! id
                = last_under id log) /\
    (forall id v log1 log2,
        log = log1 ++ (id, v) :: log2 -> id ∉ map fst log2 ->
        ({[ Str "meta" := VVersion 2 ]} : gmap str chunk_value) !! id = Some v).
Proof.
  apply (proj1 (last_chunk_wins inflate_stored) two_meta_file).
  vm_compute. reflexivity.
Defined.


(** C9, as stated, fails: this container holds two [rela] chunks, the
    first with one relation and the last with an empty payload, which
    decodes to no relations.  The last chunk starts where the loop stops;
    the result keeps the relation of the first. *)
Lemma empty_last_chunk_does_not_replace :
  riff_size (riff_container tag_RIFF tag_CdIx
               [(tag_rela, [x01; x02; x03]); (tag_rela, [])])
  = Z.of_nat (length (riff_container tag_RIFF tag_CdIx
                        [(tag_rela, [x01; x02; x03]); (tag_rela, [])])) - 8 /\
  parse_rela new_ClangIndex [] = Ok ([], set_relations [] new_ClangIndex) /\
  parse_riff_file inflate_stored
    (riff_container tag_RIFF tag_CdIx [(tag_rela, [x01; x02; x03]); (tag_rela, [])])
  = Ok {[ Str "rela" := VRelations
            [ {| subject := 1; predicate := 2; object := 3 |} ] ]}.
Proof.
  split; [reflexivity |]. split; [reflexivity |]. vm_compute. reflexivity.
Qed.
